(** * LargePrecisionTensor: digit codec and digit-array operations

    A shallow embedding of
    [syft/frameworks/torch/tensors/interpreters/large_precision_tensor.py].

    Python [int] is [Z].  A [while] loop whose termination depends on its
    input runs on fuel; running out of fuel is the outcome [OutOfFuel].
    Exceptions raised by Python, numpy or torch are the outcome [Raise]. *)

From Equations Require Import Equations.
From Stdlib Require Import ZArith QArith Qabs Qround Qpower List Bool Lia.
Import ListNotations.
Local Open Scope Z_scope.

(** ** Outcomes of a Python call *)

Inductive exn : Type :=
| ValueError
| IndexError
| RuntimeError
| TypeError
| AxisError.

Inductive outcome (A : Type) : Type :=
| Ok (a : A)
| Raise (e : exn)
| OutOfFuel.

Arguments Ok {A} a.
Arguments Raise {A} e.
Arguments OutOfFuel {A}.

Definition bind {A B : Type} (m : outcome A) (k : A -> outcome B) : outcome B :=
  match m with
  | Ok a => k a
  | Raise e => Raise e
  | OutOfFuel => OutOfFuel
  end.

Notation "x <- m ;; k" := (bind m (fun x => k))
  (at level 61, m at next level, right associativity).

(** [fails r]: the call ended by raising an exception. *)
Definition fails {A : Type} (r : outcome A) : Prop := exists e, r = Raise e.

(** Sequential [for] loop collecting results: the first call that does not
    return decides the outcome. *)
Fixpoint mapM {A B : Type} (f : A -> outcome B) (l : list A) : outcome (list B) :=
  match l with
  | [] => Ok []
  | x :: r => y <- f x ;; ys <- mapM f r ;; Ok (y :: ys)
  end.

(** ** The digit codec *)

Module DigitCodec.

(** [divmod(number, 2 ** bits)].  For [bits >= 0] the base is the int
    [2^bits] and [divmod] is floor division, which is [Z.div] and
    [Z.modulo] for a positive divisor.  For [bits < 0] Python makes the
    base the float [2.0 ** bits]; the quotient is then [number * 2^(-bits)]
    and the remainder [0.0], taken here in exact arithmetic. *)
Definition divmod_pow2 (number bits : Z) : Z * Z :=
  if 0 <=? bits then (number / 2 ^ bits, number mod 2 ^ bits)
  else (number * 2 ^ (- bits), 0).

(** One turn of the body of [while number:] in [_split_number]. *)
Definition split_step (bits : Z) (st : Z * list Z) : Z * list Z :=
  let '(number, number_parts) := st in
  let '(q, part) := divmod_pow2 number bits in
  (q, number_parts ++ [part]).

(** [while number: number, part = divmod(number, base); number_parts.append(part)] *)
Fixpoint split_loop (fuel : nat) (bits : Z) (st : Z * list Z) : outcome (list Z) :=
  if fst st =? 0 then Ok (snd st)
  else match fuel with
       | O => OutOfFuel
       | S fuel' => split_loop fuel' bits (split_step bits st)
       end.

Definition _split_number (fuel : nat) (number bits : Z) : outcome (list Z) :=
  if number =? 0 then Ok [number]
  else number_parts <- split_loop fuel bits (number, []) ;; Ok (rev number_parts).

(** [number_parts.pop()] takes the last element; the loop of
    [_restore_number] runs while the list is not empty. *)
Equations? restore_loop (base n : Z) (number_parts : list Z) : Z
  by wf (length number_parts) lt :=
  restore_loop base n [] := n;
  restore_loop base n (x :: l) :=
    restore_loop base (n * base + last (x :: l) 0) (removelast (x :: l)).
Proof.
  clear restore_loop. revert x. induction l as [|y l IH]; intro x; simpl in *.
  - lia.
  - specialize (IH y). lia.
Qed.

(** [_restore_number], for [bits >= 0] (the base is then an int). *)
Definition _restore_number (number_parts : list Z) (bits : Z) : Z :=
  let base := 2 ^ bits in
  restore_loop base 0 (rev number_parts).

(** [_restore_number_np]: [for x in number_parts.tolist(): n = n * base + x]. *)
Definition _restore_number_np (number_parts : list Z) (bits : Z) : Z :=
  let base := 2 ^ bits in
  fold_left (fun n x => n * base + x) number_parts 0.

End DigitCodec.

Import DigitCodec.

(** ** Arrays of the host libraries

    A numpy array or torch tensor is its shape and its elements in
    row-major (C) order. *)

Record ndarray (A : Type) : Type := mk_ndarray {
  shape : list nat;
  data : list A
}.

Arguments mk_ndarray {A} shape data.
Arguments shape {A} n.
Arguments data {A} n.

Definition numel (s : list nat) : nat := fold_right Nat.mul 1%nat s.

Definition well_formed {A : Type} (t : ndarray A) : Prop :=
  length (data t) = numel (shape t).

(** All multi-indices of a shape, in row-major order. *)
Fixpoint indices (s : list nat) : list (list nat) :=
  match s with
  | [] => [[]]
  | d :: s' => flat_map (fun i => map (cons i) (indices s')) (seq 0 d)
  end.

(** Row-major offset of a multi-index. *)
Fixpoint ravel (s idx : list nat) : nat :=
  match s, idx with
  | _ :: s', i :: idx' => (i * numel s' + ravel s' idx')%nat
  | _, _ => 0%nat
  end.

(** *** Broadcasting (torch [+] and [==]) *)

Definition broadcast_dim (a b : nat) : option nat :=
  if (a =? b)%nat then Some a
  else if (a =? 1)%nat then Some b
  else if (b =? 1)%nat then Some a
  else None.

(** Shapes are aligned on their last axis: the recursion runs over the
    reversed shapes. *)
Fixpoint broadcast_rev (ra rb : list nat) : option (list nat) :=
  match ra, rb with
  | [], _ => Some rb
  | _, [] => Some ra
  | a :: ra', b :: rb' =>
      match broadcast_dim a b, broadcast_rev ra' rb' with
      | Some d, Some r => Some (d :: r)
      | _, _ => None
      end
  end.

Definition broadcast_shapes (sa sb : list nat) : option (list nat) :=
  option_map (@rev nat) (broadcast_rev (rev sa) (rev sb)).

(** The element of [t] that a position [idx] of the broadcast result reads:
    the leading axes [t] lacks are dropped and an axis of length 1 is read
    at index 0. *)
Definition bget {A : Type} (d : A) (t : ndarray A) (idx : list nat) : A :=
  let own := skipn (length idx - length (shape t)) idx in
  let own' := map (fun p => if (fst p =? 1)%nat then 0%nat else snd p)
                  (combine (shape t) own) in
  nth (ravel (shape t) own') (data t) d.

Definition broadcast_map2 {A B : Type} (d : A) (f : A -> A -> B)
    (a b : ndarray A) : outcome (ndarray B) :=
  match broadcast_shapes (shape a) (shape b) with
  | None => Raise RuntimeError
  | Some s =>
      Ok (mk_ndarray s (map (fun idx => f (bget d a idx) (bget d b idx)) (indices s)))
  end.

(** *** 32-bit elements of [torch.IntTensor] *)

Definition wrap32 (z : Z) : Z := (z + 2 ^ 31) mod 2 ^ 32 - 2 ^ 31.


Definition in_int64b (z : Z) : bool := (- 2 ^ 63 <=? z) && (z <? 2 ^ 63).

(** [a + b] on two int32 tensors. *)
Definition torch_add (a b : ndarray Z) : outcome (ndarray Z) :=
  broadcast_map2 0 (fun x y => wrap32 (x + y)) a b.

(** [a == b] on two tensors: the elementwise comparison. *)
Definition torch_eq (a b : ndarray Z) : outcome (ndarray bool) :=
  broadcast_map2 0 Z.eqb a b.

(** [torch.zeros(size=s)] and [torch.ones(size=s)]; a negative dimension is
    refused. *)
Definition torch_full (v : Z) (lead : list nat) (last_dim : Z) : outcome (ndarray Z) :=
  if last_dim <? 0 then Raise RuntimeError
  else let s := lead ++ [Z.to_nat last_dim] in
       Ok (mk_ndarray s (repeat v (numel s))).

(** Do two shapes agree on every axis but [dim]? *)
Fixpoint same_except (dim : nat) (sa sb : list nat) : bool :=
  match sa, sb with
  | [], [] => true
  | a :: sa', b :: sb' =>
      match dim with
      | O => forallb (fun p => (fst p =? snd p)%nat) (combine sa' sb')
             && (length sa' =? length sb')%nat
      | S dim' => (a =? b)%nat && same_except dim' sa' sb'
      end
  | _, _ => false
  end.

(** [torch.cat([a, b], dim)]: the operands need the same rank and the same
    lengths on every axis but [dim].  (torch also lets an empty
    one-dimensional operand through; that case is left out.) *)
Definition torch_cat {A : Type} (a b : ndarray A) (dim : nat) : outcome (ndarray A) :=
  if negb (length (shape a) =? length (shape b))%nat then Raise RuntimeError
  else if (length (shape a) <=? dim)%nat then Raise IndexError
  else if negb (same_except dim (shape a) (shape b)) then Raise RuntimeError
  else
    let outer := numel (firstn dim (shape a)) in
    let ca := numel (skipn dim (shape a)) in
    let cb := numel (skipn dim (shape b)) in
    Ok (mk_ndarray
          (firstn dim (shape a)
             ++ [(nth dim (shape a) 0 + nth dim (shape b) 0)%nat]
             ++ skipn (S dim) (shape a))
          (flat_map (fun o => firstn ca (skipn (o * ca) (data a))
                              ++ firstn cb (skipn (o * cb) (data b)))
                    (seq 0 outer))).

(** *** numpy *)

(** [np.array(result)] on a list of lists of ints.  Lists of unequal
    lengths do not make a two-dimensional array: numpy either refuses them
    with [ValueError] or builds a one-dimensional array of [len(result)]
    list objects, whose [reshape] to [len(result) * L] elements ([L >= 2])
    raises [ValueError] as well. *)
Definition np_array (result : list (list Z)) : outcome (ndarray Z) :=
  match result with
  | [] => Ok (mk_ndarray [0%nat] [])
  | r :: rs =>
      if forallb (fun l => (length l =? length r)%nat) rs
      then Ok (mk_ndarray [length result; length r] (concat result))
      else Raise ValueError
  end.

Definition np_reshape {A : Type} (a : ndarray A) (new_shape : list nat)
    : outcome (ndarray A) :=
  if (numel new_shape =? length (data a))%nat
  then Ok (mk_ndarray new_shape (data a))
  else Raise ValueError.

(** [np.apply_along_axis(f, axis, arr)] for an [f] that returns a scalar:
    the axis is consumed.  numpy allocates the output with the dtype of the
    first result; the results are kept here as unbounded integers, which is
    what the output holds when every result fits int64. *)
Definition np_apply_along_axis {A B : Type} (d : A) (f : list A -> B)
    (axis : nat) (arr : ndarray A) : outcome (ndarray B) :=
  if (length (shape arr) <=? axis)%nat then Raise AxisError
  else
    let outer := numel (firstn axis (shape arr)) in
    let n := nth axis (shape arr) 0%nat in
    let inner := numel (skipn (S axis) (shape arr)) in
    if (outer * inner =? 0)%nat then Raise ValueError
    else
      Ok (mk_ndarray
            (firstn axis (shape arr) ++ skipn (S axis) (shape arr))
            (flat_map
               (fun o =>
                  map (fun i =>
                         f (map (fun j => nth (o * (n * inner) + j * inner + i)%nat
                                              (data arr) d)
                                (seq 0 n)))
                      (seq 0 inner))
               (seq 0 outer))).

(** [torch.IntTensor(arr)]: an int64 numpy array is cast to int32 element
    by element; an array whose Python ints do not fit int64 has a dtype
    torch refuses. *)
Definition torch_IntTensor (arr : ndarray Z) : outcome (ndarray Z) :=
  if forallb in_int64b (data arr)
  then Ok (mk_ndarray (shape arr) (map wrap32 (data arr)))
  else Raise TypeError.

(** ** LargePrecisionTensor *)

(** [2 ** e] as a number: an int for [e >= 0], a float otherwise. *)
Definition pow2 (e : Z) : Q := Qpower 2 e.

(** [int(q)]: truncation toward zero. *)
Definition py_int (q : Q) : Z := Z.quot (Qnum q) (Z.pos (Qden q)).

(** [len(max(result, key=len))]; [max] of an empty list raises. *)
Definition max_len (result : list (list Z)) : outcome nat :=
  match result with
  | [] => Raise ValueError
  | r :: rs => Ok (fold_left (fun m l => Nat.max m (length l)) rs (length r))
  end.

Record LargePrecisionTensor (A : Type) : Type := mk_LPT {
  precision : Z;
  virtual_prec : Z;
  child : ndarray A
}.

Arguments mk_LPT {A} precision virtual_prec child.
Arguments precision {A} l.
Arguments virtual_prec {A} l.
Arguments child {A} l.

(** The items of the input tensor are finite floats or ints, taken as the
    rationals they denote; [x.item() * 2 ** virtual_prec] is exact on
    them short of overflow.  The [print] call is left out. *)
Definition _create_internal_tensor (fuel : nat) (tensor : ndarray Q)
    (precision virtual_prec : Z) : outcome (ndarray Z) :=
  result <- mapM (fun x => let n := py_int (x * pow2 virtual_prec) in
                           _split_number fuel n precision)
                 (data tensor) ;;
  L <- max_len result ;;
  let new_shape := shape tensor ++ [L] in
  arr <- np_array result ;;
  arr' <- np_reshape arr new_shape ;;
  torch_IntTensor arr'.

Definition fix_large_precision (fuel : nat) (self : LargePrecisionTensor Q)
    : outcome (LargePrecisionTensor Z) :=
  c <- _create_internal_tensor fuel (child self) (precision self) (virtual_prec self) ;;
  Ok (mk_LPT (precision self) (virtual_prec self) c).

(** [shape[-1]] *)
Definition last_dim (s : list nat) : outcome nat :=
  match s with
  | [] => Raise IndexError
  | _ => Ok (last s 0%nat)
  end.

Definition _adjust_to_shape (to_adjust : ndarray Z) (shape' : list nat)
    (fill_value : Z) : outcome (ndarray Z) :=
  l1 <- last_dim shape' ;;
  l2 <- last_dim (shape to_adjust) ;;
  let diff_dim := Z.of_nat l1 - Z.of_nat l2 in
  filler <- (if fill_value =? 0
             then torch_full 0 (removelast (shape to_adjust)) diff_dim
             else torch_full 1 (removelast (shape to_adjust)) diff_dim) ;;
  torch_cat filler to_adjust (length shape' - 1).

Definition add (self other : LargePrecisionTensor Z)
    : outcome (LargePrecisionTensor Z) :=
  let self_ := child self in
  let other := child other in
  l1 <- last_dim (shape self_) ;;
  l2 <- last_dim (shape other) ;;
  result <- (if negb (l1 =? l2)%nat then
               if (l1 <? l2)%nat
               then a <- _adjust_to_shape self_ (shape other) 0 ;; torch_add a other
               else a <- _adjust_to_shape other (shape self_) 0 ;; torch_add a self_
             else torch_add self_ other) ;;
  Ok (mk_LPT (precision self) (virtual_prec self) result).

(** [self.child = self.add(other).child; return self] *)
Definition __iadd__ (self other : LargePrecisionTensor Z)
    : outcome (LargePrecisionTensor Z) :=
  r <- add self other ;;
  Ok (mk_LPT (precision self) (virtual_prec self) (child r)).

(** [__eq__]: [self.child == other.child]. *)
Definition __eq__ (self other : LargePrecisionTensor Z) : outcome (ndarray bool) :=
  torch_eq (child self) (child other).

(** The result is cast to float32 at the end; the values here are the
    exact quotients, before that rounding. *)
Definition restore_precision (self : LargePrecisionTensor Z) : outcome (ndarray Q) :=
  r <- np_apply_along_axis 0 (fun x => _restore_number_np x (precision self)) 1
         (child self) ;;
  Ok (mk_ndarray (shape r)
        (map (fun n => inject_Z n / pow2 (virtual_prec self))%Q (data r))).

(** ** Vocabulary of the statements *)

(** Value of a digit sequence given least-significant digit first. *)
Definition lsd_value (bits : Z) (parts : list Z) : Z :=
  fold_right (fun d v => d + 2 ^ bits * v) 0 parts.

Definition is_digit (bits d : Z) : Prop := 0 <= d < 2 ^ bits.

(** Number of base-[2^bits] digits of a non-negative [n]; zero has one. *)
Definition ndigits (bits n : Z) : nat := Z.to_nat (Z.log2 n / bits + 1).


(** The claim that [bits <= 0] is refused. *)
Definition split_refuses_nonpositive_bits : Prop :=
  forall number bits, bits <= 0 ->
    exists fuel, fails (_split_number fuel number bits).

(** Rows of length [L], each with [k] zero digits put in front. *)
Definition pad_rows (nrows L k : nat) (digits : list Z) : list Z :=
  flat_map (fun o => repeat 0 k ++ firstn L (skipn (o * L) digits)) (seq 0 nrows).


Definition digits_in_range (t : LargePrecisionTensor Z) : Prop :=
  Forall (is_digit (precision t)) (data (child t)).

(** The leading (non-digit) axes of a digit array. *)
Definition leading (s : list nat) : list nat := removelast s.

(** The claim that [add] refuses operands whose leading axes do not fit,
    read in the weakest sense: the leading axes cannot even be broadcast
    together. *)
Definition add_refuses_incompatible_leading : Prop :=
  forall self other : LargePrecisionTensor Z,
    well_formed (child self) -> well_formed (child other) ->
    broadcast_shapes (leading (shape (child self))) (leading (shape (child other))) = None ->
    fails (add self other).

(** The claim that every public operation keeps the digits in range. *)
Definition digit_invariant : Prop :=
  (forall fuel x r, fix_large_precision fuel x = Ok r -> digits_in_range r)
  /\ (forall a b r, digits_in_range a -> digits_in_range b ->
        precision a = precision b -> virtual_prec a = virtual_prec b ->
        add a b = Ok r \/ __iadd__ a b = Ok r -> digits_in_range r).

(** *** Sample tensors *)

Definition raw_1000 : LargePrecisionTensor Q := mk_LPT 8 0 (mk_ndarray [1%nat] [1000%Q]).
Definition enc_3 : LargePrecisionTensor Z := mk_LPT 8 0 (mk_ndarray [1; 1]%nat [3]).
Definition enc_1000 : LargePrecisionTensor Z := mk_LPT 8 0 (mk_ndarray [1; 2]%nat [3; 232]).

(** [[255]] with 8-bit digits. *)
Definition raw_255 : LargePrecisionTensor Q := mk_LPT 8 0 (mk_ndarray [1%nat] [255%Q]).
Definition enc_255 : LargePrecisionTensor Z := mk_LPT 8 0 (mk_ndarray [1; 1]%nat [255]).

(** Digit arrays of shapes (1, 2, 1) and (4, 2), and of shapes (1, 1) and
    (2, 1). *)
Definition t_121 : LargePrecisionTensor Z := mk_LPT 16 0 (mk_ndarray [1; 2; 1]%nat [1; 2]).
Definition t_42 : LargePrecisionTensor Z :=
  mk_LPT 16 0 (mk_ndarray [4; 2]%nat [1; 2; 3; 4; 5; 6; 7; 8]).
Definition t_11 : LargePrecisionTensor Z := mk_LPT 16 0 (mk_ndarray [1; 1]%nat [5]).
Definition t_21 : LargePrecisionTensor Z := mk_LPT 16 0 (mk_ndarray [2; 1]%nat [1; 2]).

(** The comparison array holds [true] everywhere. *)
Definition all_true (t : ndarray bool) : Prop := forallb (fun b => b) (data t) = true.

(** The claim that [==] answers "equal" exactly for equal digit arrays,
    an answer of "equal" being a comparison array that is true everywhere. *)
Definition eq_is_exact_equality : Prop :=
  forall a b : LargePrecisionTensor Z,
    well_formed (child a) -> well_formed (child b) ->
    ((exists t, __eq__ a b = Ok t /\ all_true t) <-> child a = child b).

(** [[5]] and [[327685]] ([5 * 2^16 + 5]) with 16-bit digits, and their
    encodings. *)
Definition raw_5 : LargePrecisionTensor Q := mk_LPT 16 0 (mk_ndarray [1%nat] [5%Q]).
Definition raw_327685 : LargePrecisionTensor Q := mk_LPT 16 0 (mk_ndarray [1%nat] [327685%Q]).
Definition enc_5 : LargePrecisionTensor Z := mk_LPT 16 0 (mk_ndarray [1; 1]%nat [5]).
Definition enc_327685 : LargePrecisionTensor Z := mk_LPT 16 0 (mk_ndarray [1; 2]%nat [5; 5]).



(** Row [o] of a digit array with rows of length [L]. *)
Definition row (L : nat) (digits : list Z) (o : nat) : list Z :=
  firstn L (skipn (o * L) digits).


Definition raw_1_65536 : LargePrecisionTensor Q :=
  mk_LPT 16 0 (mk_ndarray [2%nat] [1%Q; 65536%Q]).

(** [[[1, 2], [3, 4]]] with 16-bit digits, and its encoding of shape
    (2, 2, 1). *)
Definition raw_2x2 : LargePrecisionTensor Q :=
  mk_LPT 16 0 (mk_ndarray [2; 2]%nat [1%Q; 2%Q; 3%Q; 4%Q]).
Definition enc_2x2 : LargePrecisionTensor Z :=
  mk_LPT 16 0 (mk_ndarray [2; 2; 1]%nat [1; 2; 3; 4]).

(** The outcome of a call, seen through a function of its result. *)
Definition omap {A B : Type} (f : A -> B) (r : outcome A) : outcome B :=
  match r with
  | Ok a => Ok (f a)
  | Raise e => Raise e
  | OutOfFuel => OutOfFuel
  end.

(** Rows of length [L], each with [k] copies of [v] put in front. *)
Definition pad_rows_with (v : Z) (nrows L k : nat) (digits : list Z) : list Z :=
  flat_map (fun o => repeat v k ++ firstn L (skipn (o * L) digits)) (seq 0 nrows).


(** * Theorems *)

(** ** The digit codec *)

Section Codec.

Variable bits : Z.

Lemma divmod_pow2_nonneg number :
  0 <= bits -> divmod_pow2 number bits = (number / 2 ^ bits, number mod 2 ^ bits).
Proof.
  intro H. unfold divmod_pow2. destruct (Z.leb_spec 0 bits); [reflexivity | lia].
Qed.

Lemma split_loop_zero fuel parts : split_loop fuel bits (0, parts) = Ok parts.
Proof. destruct fuel; reflexivity. Qed.

Lemma split_loop_step fuel st :
  fst st <> 0 -> split_loop (S fuel) bits st = split_loop fuel bits (split_step bits st).
Proof.
  intro H. simpl. destruct (Z.eqb_spec (fst st) 0); [contradiction | reflexivity].
Qed.

Lemma split_step_fst number parts :
  fst (split_step bits (number, parts)) = fst (divmod_pow2 number bits).
Proof. unfold split_step. destruct (divmod_pow2 number bits). reflexivity. Qed.

Lemma split_step_snd number parts :
  snd (split_step bits (number, parts)) = parts ++ [snd (divmod_pow2 number bits)].
Proof. unfold split_step. destruct (divmod_pow2 number bits). reflexivity. Qed.

(** The loop never raises. *)
Lemma split_loop_no_raise fuel st e : split_loop fuel bits st <> Raise e.
Proof.
  revert st. induction fuel as [|fuel IH]; intro st; simpl;
    destruct (fst st =? 0); try discriminate. apply IH.
Qed.

(** More fuel does not change what the loop returns. *)
Lemma split_loop_mono k : forall st l,
  split_loop k bits st = Ok l ->
  forall k', (k <= k')%nat -> split_loop k' bits st = Ok l.
Proof.
  induction k as [|k IH]; intros st l H k' Hk.
  - simpl in H. destruct (Z.eqb_spec (fst st) 0); [|discriminate].
    destruct k'; simpl; destruct (Z.eqb_spec (fst st) 0); congruence.
  - destruct k' as [|k']; [lia|]. simpl in *.
    destruct (fst st =? 0); [assumption|].
    apply IH with (k' := k') in H; [assumption | lia].
Qed.

Hypothesis bits_pos : 0 < bits.

Lemma pow2_bits_ge_2 : 2 <= 2 ^ bits.
Proof.
  change 2 with (2 ^ 1) at 1. apply Z.pow_le_mono_r; lia.
Qed.

(** On a positive number the loop returns within [number] turns; what it
    appends are the digits of [number], least significant first. *)
Lemma split_loop_pos fuel : forall number parts,
  0 < number -> (Z.to_nat number <= fuel)%nat ->
  exists new, split_loop fuel bits (number, parts) = Ok (parts ++ new)
    /\ Forall (is_digit bits) new
    /\ lsd_value bits new = number
    /\ length new = ndigits bits number.
Proof.
  pose proof pow2_bits_ge_2 as Hb.
  induction fuel as [|fuel IH]; intros number parts Hn Hf; [lia|].
  rewrite split_loop_step by (simpl; lia).
  unfold split_step. rewrite divmod_pow2_nonneg by lia.
  assert (Hq : 0 <= number / 2 ^ bits) by (apply Z.div_pos; lia).
  assert (Hr : 0 <= number mod 2 ^ bits < 2 ^ bits) by (apply Z.mod_pos_bound; lia).
  pose proof (Z.div_mod number (2 ^ bits) ltac:(lia)) as Hdm.
  destruct (Z.eq_dec (number / 2 ^ bits) 0) as [Hz|Hz].
  - rewrite Hz, split_loop_zero. exists [number mod 2 ^ bits].
    split; [reflexivity|]. split; [constructor; [exact Hr | constructor]|].
    split; [simpl; lia|].
    unfold ndigits. simpl.
    assert (Hlt : number < 2 ^ bits) by nia.
    assert (Hl : Z.log2 number < bits) by (apply Z.log2_lt_pow2; lia).
    pose proof (Z.log2_nonneg number).
    rewrite Z.div_small by lia. reflexivity.
  - assert (Hlt : number / 2 ^ bits < number) by (apply Z.div_lt; lia).
    destruct (IH (number / 2 ^ bits) (parts ++ [number mod 2 ^ bits])) as
      (new & He & Hd & Hv & Hl); [lia | lia |].
    exists (number mod 2 ^ bits :: new).
    rewrite He, <- app_assoc. split; [reflexivity|].
    split; [constructor; assumption|].
    split; [simpl; fold (lsd_value bits new); rewrite Hv; lia|].
    simpl. rewrite Hl. unfold ndigits.
    rewrite <- Z.shiftr_div_pow2 by lia.
    rewrite Z.log2_shiftr by lia.
    assert (Hge : 2 ^ bits <= number) by nia.
    assert (Hlg : bits <= Z.log2 number) by (apply Z.log2_le_pow2; lia).
    rewrite Z.max_r by lia.
    replace (Z.log2 number) with ((Z.log2 number - bits) + 1 * bits) at 2 by lia.
    rewrite Z.div_add by lia.
    assert (0 <= (Z.log2 number - bits) / bits) by (apply Z.div_pos; lia).
    lia.
Qed.

End Codec.

(** [_split_number] on a non-negative number, for any sufficient fuel. *)
Lemma split_number_nonneg bits n :
  0 < bits -> 0 <= n ->
  exists parts,
    (forall fuel, (Z.to_nat n <= fuel)%nat -> _split_number fuel n bits = Ok parts)
    /\ Forall (is_digit bits) parts
    /\ lsd_value bits (rev parts) = n
    /\ length parts = ndigits bits n.
Proof.
  intros Hb Hn. destruct (Z.eq_dec n 0) as [->|Hnz].
  - exists [0]. split; [intros; reflexivity|].
    split; [constructor; [split; [lia | apply Z.pow_pos_nonneg; lia] | constructor]|].
    split; [simpl; lia|]. unfold ndigits. change (Z.log2 0) with 0.
    rewrite Z.div_0_l by lia. reflexivity.
  - destruct (split_loop_pos bits Hb (Z.to_nat n) n [] ltac:(lia) ltac:(lia))
      as (new & He & Hd & Hv & Hl).
    exists (rev new). split; [|split; [|split]].
    + intros fuel Hf. unfold _split_number.
      destruct (Z.eqb_spec n 0); [contradiction|].
      destruct (split_loop_pos bits Hb fuel n [] ltac:(lia) Hf) as (new' & He' & _ & Hv' & Hl').
      rewrite He'. simpl.
      assert (Hsame : new' = new).
      { simpl in He, He'.
        apply (split_loop_mono bits _ _ _ He) in Hf. congruence. }
      rewrite Hsame. reflexivity.
    + apply Forall_rev. assumption.
    + rewrite rev_involutive. assumption.
    + rewrite length_rev. assumption.
Qed.



(** [_split_number] has no [raise]. *)
Lemma split_number_no_raise fuel n bits e : _split_number fuel n bits <> Raise e.
Proof.
  unfold _split_number. destruct (n =? 0); [discriminate|].
  destruct (split_loop fuel bits (n, [])) eqn:E; simpl; try discriminate.
  exfalso. eapply split_loop_no_raise. exact E.
Qed.

(** The popping loop of [_restore_number] reads the reversed list from its
    end, that is the given list from its front. *)
Lemma restore_loop_snoc base n l x :
  restore_loop base n (l ++ [x]) = restore_loop base (n * base + x) l.
Proof.
  destruct (l ++ [x]) as [|y r] eqn:E.
  - destruct l; discriminate.
  - rewrite restore_loop_equation_2, <- E.
    rewrite last_last, removelast_last. reflexivity.
Qed.

Lemma restore_loop_rev base l : forall n,
  restore_loop base n (rev l) = fold_left (fun n x => n * base + x) l n.
Proof.
  induction l as [|x l IH]; intro n; simpl.
  - apply restore_loop_equation_1.
  - rewrite restore_loop_snoc. apply IH.
Qed.

Lemma restore_number_np_eq number_parts bits :
  _restore_number number_parts bits = _restore_number_np number_parts bits.
Proof. unfold _restore_number, _restore_number_np. apply restore_loop_rev. Qed.

Lemma restore_np_lsd bits l :
  _restore_number_np l bits = lsd_value bits (rev l).
Proof.
  unfold _restore_number_np, lsd_value. rewrite fold_left_rev_right.
  assert (H : forall acc, fold_left (fun n x => n * 2 ^ bits + x) l acc
                     = fold_left (fun x y => y + 2 ^ bits * x) l acc).
  { induction l as [|d l IH]; intro acc; simpl; [reflexivity|].
    rewrite IH. f_equal. lia. }
  apply H.
Qed.

(** Zero digits in front do not change the restored value. *)
Lemma restore_np_zeros bits k l :
  _restore_number_np (repeat 0 k ++ l) bits = _restore_number_np l bits.
Proof.
  unfold _restore_number_np. rewrite fold_left_app.
  replace (fold_left (fun n x => n * 2 ^ bits + x) (repeat 0 k) 0) with 0; [reflexivity|].
  induction k as [|k IH]; simpl; [reflexivity | exact IH].
Qed.

(** C2. For every non-negative integer [n] and every [bits > 0],
    [_split_number] returns (on any fuel of at least [n] turns) a digit
    sequence that [_restore_number] with the same [bits] turns back
    into [n] exactly. *)
Theorem split_restore_roundtrip (n bits : Z) :
  0 <= n -> 0 < bits ->
  exists parts,
    (forall fuel, (Z.to_nat n <= fuel)%nat -> _split_number fuel n bits = Ok parts)
    /\ _restore_number parts bits = n.
Proof.
  intros Hn Hb. destruct (split_number_nonneg bits n Hb Hn) as (parts & He & _ & Hv & _).
  exists parts. split; [exact He|].
  rewrite restore_number_np_eq, restore_np_lsd. exact Hv.
Qed.

Lemma split_restore_roundtrip_witness :
  exists parts,
    (forall fuel, (Z.to_nat 1000 <= fuel)%nat -> _split_number fuel 1000 8 = Ok parts)
    /\ _restore_number parts 8 = 1000.
Proof. apply (split_restore_roundtrip 1000 8); lia. Defined.

(** *** Negative numbers *)

Lemma divmod_neg bits number :
  0 < bits -> number < 0 ->
  let q := fst (divmod_pow2 number bits) in
  q < 0 /\ (number = -1 -> q = -1) /\ (number < -1 -> number < q).
Proof.
  intros Hb Hn. rewrite divmod_pow2_nonneg by lia. simpl.
  pose proof (pow2_bits_ge_2 bits Hb) as H2.
  pose proof (Z.div_mod number (2 ^ bits) ltac:(lia)) as Hdm.
  pose proof (Z.mod_pos_bound number (2 ^ bits) ltac:(lia)) as Hr.
  repeat split; intros; nia.
Qed.

Lemma split_loop_neg bits fuel : forall st,
  0 < bits -> fst st < 0 -> split_loop fuel bits st = OutOfFuel.
Proof.
  induction fuel as [|fuel IH]; intros st Hb Hn.
  - simpl. destruct (Z.eqb_spec (fst st) 0); [lia | reflexivity].
  - rewrite split_loop_step by lia. apply IH; [assumption|].
    destruct st as [number parts]. rewrite split_step_fst.
    apply divmod_neg; assumption.
Qed.

Lemma split_iter_neg bits number k :
  0 < bits -> number < 0 ->
  let q := fst (Nat.iter k (split_step bits) (number, [])) in
  q < 0 /\ (q = -1 \/ number + Z.of_nat k <= q).
Proof.
  intros Hb Hn. induction k as [|k IH].
  - simpl. lia.
  - cbv zeta in *. rewrite Nat.iter_succ.
    destruct (Nat.iter k (split_step bits) (number, [])) as [m parts]. simpl fst in IH.
    rewrite split_step_fst.
    destruct IH as [Hm Hk].
    pose proof (divmod_neg bits m Hb Hm) as (H1 & H2 & H3). cbv zeta in *.
    split; [assumption|].
    destruct (Z.eq_dec m (-1)) as [->|Hne]; [left; auto|].
    right. assert (m < -1) by lia. specialize (H3 ltac:(lia)). lia.
Qed.

Lemma split_number_neg fuel number bits :
  number < 0 -> 0 < bits -> _split_number fuel number bits = OutOfFuel.
Proof.
  intros Hn Hb. unfold _split_number.
  destruct (Z.eqb_spec number 0); [lia|].
  rewrite split_loop_neg by (simpl; lia). reflexivity.
Qed.

(** C10. For every strictly negative [number] and every [bits > 0] the
    loop of [_split_number] does not terminate: whatever the fuel, the call
    runs out of it; the quotient stays negative after every turn and is
    [-1] from some turn on, so the loop condition never becomes false. *)
Theorem split_negative_diverges (number bits : Z) :
  number < 0 -> 0 < bits ->
  (forall fuel, _split_number fuel number bits = OutOfFuel)
  /\ (forall k, fst (Nat.iter k (split_step bits) (number, [])) < 0)
  /\ (exists k0, forall k, (k0 <= k)%nat ->
        fst (Nat.iter k (split_step bits) (number, [])) = -1).
Proof.
  intros Hn Hb. split; [|split].
  - intro fuel. apply split_number_neg; assumption.
  - intro k. apply split_iter_neg; assumption.
  - exists (Z.to_nat (- number)). intros k Hk.
    destruct (split_iter_neg bits number k Hb Hn) as [Hlt [He|Hge]]; [assumption | lia].
Qed.

Lemma split_negative_diverges_witness :
  (forall fuel, _split_number fuel (-5) 16 = OutOfFuel)
  /\ (forall k, fst (Nat.iter k (split_step 16) (-5, [])) < 0)
  /\ (exists k0, forall k, (k0 <= k)%nat ->
        fst (Nat.iter k (split_step 16) (-5, [])) = -1).
Proof. apply (split_negative_diverges (-5) 16); lia. Defined.

(** *** Bit widths that are not positive *)

Lemma split_loop_bits_zero fuel : forall st,
  fst st <> 0 -> split_loop fuel 0 st = OutOfFuel.
Proof.
  induction fuel as [|fuel IH]; intros st Hn.
  - simpl. destruct (Z.eqb_spec (fst st) 0); [contradiction | reflexivity].
  - rewrite split_loop_step by assumption. apply IH.
    destruct st as [number parts]. rewrite split_step_fst.
    unfold divmod_pow2. simpl. rewrite Z.div_1_r. assumption.
Qed.

(** Counterexample to C7: with [bits = 0] and value [0] the split returns
    [[0]] and raises nothing. *)
Lemma split_zero_bits_returns :
  (forall fuel, _split_number fuel 0 0 = Ok [0])
  /\ ~ (exists fuel, fails (_split_number fuel 0 0))
  /\ ~ split_refuses_nonpositive_bits.
Proof.
  assert (H : ~ (exists fuel, fails (_split_number fuel 0 0))).
  { intros [fuel [e He]]. discriminate He. }
  split; [reflexivity|]. split; [exact H|].
  intro C. apply H. apply (C 0 0). lia.
Qed.

(** C7, amended. [_split_number] does not validate [bits]: for every
    [bits <= 0] the value [0] is returned as [[0]], and with [bits = 0] a
    non-zero value makes the loop run forever (the base is 1 and the
    quotient never changes); no error is raised in either case. *)
Theorem split_nonpositive_bits_unchecked (number bits : Z) :
  bits <= 0 ->
  (number = 0 -> forall fuel, _split_number fuel number bits = Ok [0])
  /\ (number <> 0 -> bits = 0 -> forall fuel, _split_number fuel number bits = OutOfFuel).
Proof.
  intro Hb. split.
  - intros -> fuel. reflexivity.
  - intros Hn -> fuel. unfold _split_number.
    destruct (Z.eqb_spec number 0); [contradiction|].
    rewrite split_loop_bits_zero by (simpl; assumption). reflexivity.
Qed.

Lemma split_nonpositive_bits_unchecked_witness :
  (7 = 0 -> forall fuel, _split_number fuel 7 0 = Ok [0])
  /\ (7 <> 0 -> 0 = 0 -> forall fuel, _split_number fuel 7 0 = OutOfFuel).
Proof. apply (split_nonpositive_bits_unchecked 7 0). lia. Defined.

(** ** Arrays: indices, rows and broadcasting *)

Section Arrays.

Local Open Scope nat_scope.

Lemma map_flat_map {A B C : Type} (f : B -> C) (g : A -> list B) (l : list A) :
  map f (flat_map g l) = flat_map (fun x => map f (g x)) l.
Proof.
  induction l as [|x l IH]; simpl; [reflexivity|].
  rewrite map_app, IH. reflexivity.
Qed.

Lemma map_add_seq a n : map (fun k => a + k) (seq 0 n) = seq a n.
Proof.
  induction n as [|n IH]; [reflexivity|].
  rewrite !seq_S, map_app, IH. reflexivity.
Qed.

Lemma flat_map_seq_blocks c n :
  flat_map (fun i => seq (i * c) c) (seq 0 n) = seq 0 (n * c).
Proof.
  induction n as [|n IH]; [reflexivity|].
  rewrite seq_S, flat_map_app, IH. simpl. rewrite app_nil_r.
  replace (c + n * c) with (n * c + c) by lia. rewrite seq_app. reflexivity.
Qed.

Lemma ravel_indices s : map (ravel s) (indices s) = seq 0 (numel s).
Proof.
  induction s as [|d s IH]; [reflexivity|].
  simpl indices. rewrite map_flat_map.
  rewrite (flat_map_ext _ (fun i => seq (i * numel s) (numel s))).
  - apply flat_map_seq_blocks.
  - intro i. rewrite map_map. simpl.
    rewrite <- (map_map (ravel s) (fun k => i * numel s + k)), IH.
    apply map_add_seq.
Qed.

Lemma indices_bound s : forall idx,
  In idx (indices s) -> Forall2 lt idx s.
Proof.
  induction s as [|d s IH]; intros idx H; simpl in H.
  - destruct H as [<-|[]]. constructor.
  - apply in_flat_map in H. destruct H as (i & Hi & H).
    apply in_map_iff in H. destruct H as (r & <- & Hr).
    apply in_seq in Hi. constructor; [lia | apply IH; assumption].
Qed.

(** Reading an array at one of its own indices. *)
Lemma bget_own {A : Type} (d : A) (t : ndarray A) idx :
  In idx (indices (shape t)) ->
  bget d t idx = nth (ravel (shape t) idx) (data t) d.
Proof.
  intro H. apply indices_bound in H. unfold bget.
  rewrite (Forall2_length H), Nat.sub_diag. simpl skipn.
  f_equal. f_equal.
  induction H as [|i dim idx s Hlt H IH]; [reflexivity|].
  simpl. rewrite IH. f_equal.
  destruct (Nat.eqb_spec dim 1); lia.
Qed.

Lemma broadcast_rev_refl r : broadcast_rev r r = Some r.
Proof.
  induction r as [|a r IH]; [reflexivity|].
  simpl. unfold broadcast_dim. rewrite Nat.eqb_refl, IH. reflexivity.
Qed.

Lemma broadcast_shapes_refl s : broadcast_shapes s s = Some s.
Proof.
  unfold broadcast_shapes. rewrite broadcast_rev_refl. simpl.
  rewrite rev_involutive. reflexivity.
Qed.

Lemma map_nth_seq2 {A B : Type} (d : A) (f : A -> A -> B) : forall la lb n,
  length la = n -> length lb = n ->
  map (fun k => f (nth k la d) (nth k lb d)) (seq 0 n)
  = map (fun p => f (fst p) (snd p)) (combine la lb).
Proof.
  induction la as [|x la IH]; intros lb n Ha Hb; simpl in Ha; subst n.
  - reflexivity.
  - destruct lb as [|y lb]; [discriminate|]. simpl in Hb.
    simpl. f_equal. rewrite <- seq_shift, map_map. simpl.
    apply IH; [reflexivity | lia].
Qed.

(** With equal shapes broadcasting is the plain elementwise operation. *)
Lemma broadcast_map2_same {A B : Type} (d : A) (f : A -> A -> B) (a b : ndarray A) :
  shape a = shape b -> well_formed a -> well_formed b ->
  broadcast_map2 d f a b
  = Ok (mk_ndarray (shape a) (map (fun p => f (fst p) (snd p)) (combine (data a) (data b)))).
Proof.
  intros Hs Ha Hb. unfold broadcast_map2. rewrite <- Hs, broadcast_shapes_refl.
  f_equal. f_equal.
  rewrite (map_ext_in _ (fun idx => f (nth (ravel (shape a) idx) (data a) d)
                                      (nth (ravel (shape a) idx) (data b) d))).
  - rewrite <- (map_map (ravel (shape a))
                        (fun k => f (nth k (data a) d) (nth k (data b) d))).
    rewrite ravel_indices. apply map_nth_seq2; [exact Ha|].
    rewrite Hs. exact Hb.
  - intros idx Hi. rewrite (bget_own d a idx Hi).
    rewrite Hs in Hi. rewrite (bget_own d b idx Hi), <- Hs. reflexivity.
Qed.

(** Every element a broadcast operation produces combines one element of
    each operand. *)
Lemma broadcast_map2_elems {A B : Type} (d : A) (f : A -> A -> B) (P : A -> Prop)
    (a b : ndarray A) r :
  P d -> Forall P (data a) -> Forall P (data b) ->
  broadcast_map2 d f a b = Ok r ->
  Forall (fun z => exists x y, P x /\ P y /\ z = f x y) (data r).
Proof.
  intros Hd Ha Hb H. unfold broadcast_map2 in H.
  destruct (broadcast_shapes (shape a) (shape b)); [|discriminate].
  injection H as <-. simpl. apply Forall_map, Forall_forall. intros idx _.
  assert (Hg : forall t, Forall P (data t) -> P (bget d t idx)).
  { intros t Ht. unfold bget.
    destruct (nth_in_or_default
                (ravel (shape t)
                   (map (fun p => if fst p =? 1 then 0 else snd p)
                      (combine (shape t) (skipn (length idx - length (shape t)) idx))))
                (data t) d) as [Hin| ->]; [|exact Hd].
    rewrite Forall_forall in Ht. apply Ht. exact Hin. }
  exists (bget d a idx), (bget d b idx). auto.
Qed.

Lemma Forall_firstn_skipn {A : Type} (P : A -> Prop) n k (l : list A) :
  Forall P l -> Forall P (firstn n (skipn k l)).
Proof.
  intro H. rewrite <- (firstn_skipn k l) in H. apply Forall_app in H.
  destruct H as [_ H]. rewrite <- (firstn_skipn n (skipn k l)) in H.
  apply Forall_app in H. tauto.
Qed.

Lemma torch_cat_elems {A : Type} (P : A -> Prop) (a b : ndarray A) dim r :
  Forall P (data a) -> Forall P (data b) ->
  torch_cat a b dim = Ok r -> Forall P (data r).
Proof.
  intros Ha Hb H. unfold torch_cat in H.
  destruct (negb (length (shape a) =? length (shape b))); [discriminate|].
  destruct (length (shape a) <=? dim); [discriminate|].
  destruct (negb (same_except dim (shape a) (shape b))); [discriminate|].
  injection H as <-. simpl. apply Forall_flat_map, Forall_forall. intros o _.
  apply Forall_app. split; apply Forall_firstn_skipn; assumption.
Qed.


End Arrays.

(** ** 32-bit sums *)

Lemma wrap32_small z : - 2 ^ 31 <= z < 2 ^ 31 -> wrap32 z = z.
Proof.
  intro H. unfold wrap32. rewrite Z.mod_small; lia.
Qed.

(** ** Shape alignment and [add] *)

Section Add.

Local Open Scope nat_scope.

Lemma numel_app s1 s2 : numel (s1 ++ s2) = numel s1 * numel s2.
Proof.
  induction s1 as [|d s1 IH]; simpl; [lia|]. rewrite IH. lia.
Qed.

Lemma numel_snoc s L : numel (s ++ [L]) = numel s * L.
Proof. rewrite numel_app. simpl. lia. Qed.

Lemma last_dim_snoc s L : last_dim (s ++ [L]) = Ok L.
Proof.
  unfold last_dim. rewrite last_last. destruct (s ++ [L]) eqn:E; [|reflexivity].
  destruct s; discriminate.
Qed.

Lemma same_except_snoc lead x y : same_except (length lead) (lead ++ [x]) (lead ++ [y]) = true.
Proof.
  induction lead as [|d lead IH]; simpl; [reflexivity|].
  rewrite Nat.eqb_refl. exact IH.
Qed.

Lemma firstn_skipn_repeat {A : Type} (a : A) n k m :
  k + m <= n -> firstn m (skipn k (repeat a n)) = repeat a m.
Proof.
  intro H. replace n with (k + (m + (n - k - m))) by lia.
  rewrite !repeat_app.
  rewrite skipn_app, repeat_length, Nat.sub_diag. simpl skipn at 2.
  rewrite skipn_all2 by (rewrite repeat_length; lia). simpl.
  rewrite firstn_app, repeat_length, Nat.sub_diag. simpl firstn at 2.
  rewrite firstn_all2 by (rewrite repeat_length; lia). apply app_nil_r.
Qed.

Lemma length_row {A : Type} (l : list A) n L o :
  length l = n * L -> o < n -> length (firstn L (skipn (o * L) l)) = L.
Proof.
  intros Hl Ho. rewrite length_firstn, length_skipn, Hl. nia.
Qed.

Lemma length_pad_rows nrows L k digits :
  length digits = nrows * L -> length (pad_rows nrows L k digits) = nrows * (k + L).
Proof.
  intro Hl. unfold pad_rows.
  rewrite (flat_map_constant_length (c := k + L)), length_seq; [reflexivity|].
  intros o Ho. apply in_seq in Ho.
  rewrite length_app, repeat_length, (length_row digits nrows) by (assumption || lia).
  reflexivity.
Qed.


Lemma flat_map_ext_in {A B : Type} (f g : A -> list B) (l : list A) :
  (forall x, In x l -> f x = g x) -> flat_map f l = flat_map g l.
Proof.
  intro H. induction l as [|x l IH]; simpl; [reflexivity|].
  rewrite (H x) by (left; reflexivity). rewrite IH; [reflexivity|].
  intros y Hy. apply H. right. exact Hy.
Qed.

Lemma firstn_snoc {A : Type} (l : list A) x : firstn (length l) (l ++ [x]) = l.
Proof. induction l as [|y l IH]; simpl; [reflexivity | rewrite IH; reflexivity]. Qed.

Lemma skipn_snoc {A : Type} (l : list A) x : skipn (length l) (l ++ [x]) = [x].
Proof. induction l as [|y l IH]; simpl; [reflexivity | exact IH]. Qed.

Lemma skipn_S_snoc {A : Type} (l : list A) x : skipn (S (length l)) (l ++ [x]) = [].
Proof. induction l as [|y l IH]; simpl; [reflexivity | exact IH]. Qed.

(** [_adjust_to_shape] on an array whose last axis is shorter than that of
    the target shape, the ranks being equal: every row gets the missing
    zeros in front. *)
Lemma adjust_to_shape_pads (t : ndarray Z) lead lead' L L' :
  shape t = lead ++ [L] -> length lead' = length lead -> L < L' ->
  _adjust_to_shape t (lead' ++ [L']) 0
  = Ok (mk_ndarray (lead ++ [L']) (pad_rows (numel lead) L (L' - L) (data t))).
Proof.
  intros Hs Hlen HL. unfold _adjust_to_shape.
  rewrite last_dim_snoc, Hs, last_dim_snoc. simpl bind.
  rewrite removelast_last. unfold torch_full.
  destruct (Z.ltb_spec (Z.of_nat L' - Z.of_nat L) 0); [lia|].
  replace (Z.to_nat (Z.of_nat L' - Z.of_nat L)) with (L' - L) by lia.
  simpl bind. unfold torch_cat. simpl shape. simpl data.
  rewrite Hs, !length_app, Hlen. simpl length.
  replace (length lead + 1 - 1) with (length lead) by lia.
  rewrite Nat.eqb_refl. simpl negb.
  destruct (Nat.leb_spec (length lead + 1) (length lead)); [lia|].
  rewrite same_except_snoc. simpl negb.
  rewrite !firstn_snoc, !skipn_snoc, !skipn_S_snoc, !nth_middle, numel_snoc.
  f_equal. f_equal.
  - replace (L' - L + L) with L' by lia. reflexivity.
  - unfold pad_rows. apply flat_map_ext_in.
    intros o Ho. apply in_seq in Ho. simpl numel. rewrite !Nat.mul_1_r.
    rewrite firstn_skipn_repeat by nia. reflexivity.
Qed.








Lemma broadcast_dim_none_sym a b : broadcast_dim a b = None -> broadcast_dim b a = None.
Proof.
  unfold broadcast_dim.
  destruct (Nat.eqb_spec a b), (Nat.eqb_spec b a), (a =? 1), (b =? 1);
    congruence.
Qed.

Lemma broadcast_rev_none_sym : forall ra rb,
  broadcast_rev ra rb = None -> broadcast_rev rb ra = None.
Proof.
  induction ra as [|a ra IH]; intros [|b rb] H; simpl in *; try discriminate.
  destruct (broadcast_dim a b) eqn:Ed.
  - destruct (broadcast_rev ra rb) eqn:Er; [discriminate|].
    rewrite (IH rb Er). destruct (broadcast_dim b a); reflexivity.
  - rewrite (broadcast_dim_none_sym a b Ed). reflexivity.
Qed.

Lemma broadcast_shapes_none_rev sa sb :
  broadcast_shapes sa sb = None <-> broadcast_rev (rev sa) (rev sb) = None.
Proof.
  unfold broadcast_shapes. destruct (broadcast_rev (rev sa) (rev sb)); simpl;
    split; congruence.
Qed.

Lemma broadcast_shapes_snoc_none la lb x y :
  broadcast_shapes la lb = None -> broadcast_shapes (la ++ [x]) (lb ++ [y]) = None.
Proof.
  rewrite !broadcast_shapes_none_rev, !rev_app_distr. simpl. intros ->.
  destruct (broadcast_dim x y); reflexivity.
Qed.

Lemma torch_add_mismatch (a b : ndarray Z) :
  broadcast_shapes (shape a) (shape b) = None -> torch_add a b = Raise RuntimeError.
Proof. intro H. unfold torch_add, broadcast_map2. rewrite H. reflexivity. Qed.

(** Counterexample to C8: a (1, 2, 1) array and a (4, 2) array have leading
    axes (1, 2) and (4,) that cannot be broadcast together, and a (1, 1) and
    a (2, 1) array have different leading axes; [add] returns a tensor for
    both pairs. *)
Lemma add_accepts_mismatched_leading :
  broadcast_shapes (leading (shape (child t_121))) (leading (shape (child t_42))) = None
  /\ add t_121 t_42
     = Ok (mk_LPT 16 0 (mk_ndarray [1; 4; 2] [1; 2; 3; 4; 6; 7; 9; 10]%Z))
  /\ leading (shape (child t_11)) <> leading (shape (child t_21))
  /\ add t_11 t_21 = Ok (mk_LPT 16 0 (mk_ndarray [2; 1] [6; 7]%Z))
  /\ ~ add_refuses_incompatible_leading.
Proof.
  split; [reflexivity|]. split; [reflexivity|].
  split; [discriminate|]. split; [reflexivity|].
  intro C. destruct (C t_121 t_42) as [e He]; try reflexivity.
  vm_compute in He. discriminate He.
Qed.

(** C8, amended. [add] makes no shape check of its own.  For operands of
    the same rank whose leading axes cannot be broadcast together, the
    size-mismatch error of the tensor library ([RuntimeError]) is what
    [add] ends with. *)
Theorem add_same_rank_mismatch_raises (self other : LargePrecisionTensor Z)
    (la lb : list nat) (La Lb : nat) :
  shape (child self) = la ++ [La] ->
  shape (child other) = lb ++ [Lb] ->
  length la = length lb ->
  broadcast_shapes la lb = None ->
  add self other = Raise RuntimeError.
Proof.
  intros Hs Ho Hlen Hb. unfold add.
  rewrite Hs, Ho, !last_dim_snoc. simpl bind.
  destruct (Nat.eqb_spec La Lb) as [->|Hne]; simpl negb; cbv iota.
  - rewrite torch_add_mismatch; [reflexivity|].
    rewrite Hs, Ho. apply broadcast_shapes_snoc_none. exact Hb.
  - destruct (Nat.ltb_spec La Lb) as [Hlt|Hge].
    + rewrite (adjust_to_shape_pads (child self) la lb La Lb Hs (eq_sym Hlen) Hlt).
      simpl bind. rewrite torch_add_mismatch; [reflexivity|].
      simpl shape. rewrite Ho. apply broadcast_shapes_snoc_none. exact Hb.
    + assert (Hgt : Lb < La) by lia.
      rewrite (adjust_to_shape_pads (child other) lb la Lb La Ho Hlen Hgt).
      simpl bind. rewrite torch_add_mismatch; [reflexivity|].
      simpl shape. rewrite Hs. apply broadcast_shapes_snoc_none.
      apply broadcast_shapes_none_rev, broadcast_rev_none_sym, broadcast_shapes_none_rev.
      exact Hb.
Qed.

Lemma add_same_rank_mismatch_raises_witness :
  add (mk_LPT 16 0 (mk_ndarray [2; 1] [1; 2]%Z))
      (mk_LPT 16 0 (mk_ndarray [3; 2] [1; 2; 3; 4; 5; 6]%Z))
  = Raise RuntimeError.
Proof.
  apply (add_same_rank_mismatch_raises _ _ [2] [3] 1 2); reflexivity.
Defined.

End Add.

(** ** The range of the digits *)

Lemma split_loop_digits bits fuel : forall st l,
  0 <= bits -> Forall (is_digit bits) (snd st) ->
  split_loop fuel bits st = Ok l -> Forall (is_digit bits) l.
Proof.
  induction fuel as [|fuel IH]; intros st l Hb Hd H; simpl in H;
    destruct (fst st =? 0); try discriminate; try congruence.
  apply (IH _ _ Hb) in H; [exact H|].
  destruct st as [number parts]. rewrite split_step_snd.
  apply Forall_app. split; [exact Hd|].
  constructor; [|constructor]. rewrite divmod_pow2_nonneg by assumption. simpl.
  apply Z.mod_pos_bound. apply Z.pow_pos_nonneg; lia.
Qed.

Lemma split_number_digits bits fuel n l :
  0 <= bits -> _split_number fuel n bits = Ok l -> Forall (is_digit bits) l.
Proof.
  intros Hb H. unfold _split_number in H. destruct (Z.eqb_spec n 0) as [->|Hn].
  - injection H as <-. constructor; [|constructor].
    split; [lia | apply Z.pow_pos_nonneg; lia].
  - destruct (split_loop fuel bits (n, [])) as [parts| |] eqn:E; try discriminate.
    injection H as <-. apply Forall_rev.
    apply (split_loop_digits bits fuel (n, []) parts Hb); [constructor | exact E].
Qed.

Lemma mapM_Forall {A B : Type} (f : A -> outcome B) (P : B -> Prop) : forall l res,
  (forall x y, f x = Ok y -> P y) -> mapM f l = Ok res -> Forall P res.
Proof.
  induction l as [|x l IH]; intros res Hf H; simpl in H.
  - injection H as <-. constructor.
  - destruct (f x) as [y| |] eqn:Ey; try discriminate. simpl in H.
    destruct (mapM f l) as [ys| |] eqn:Eys; try discriminate.
    injection H as <-. constructor; [eapply Hf; eassumption | apply IH; auto].
Qed.

Lemma is_digit_int31 p d : 0 <= p <= 30 -> is_digit p d -> 0 <= d < 2 ^ 30.
Proof.
  intros Hp [H0 H1]. split; [assumption|].
  apply Z.lt_le_trans with (2 ^ p); [assumption|].
  apply Z.pow_le_mono_r; lia.
Qed.

Lemma is_digit_int32 p d : 0 <= p <= 31 -> is_digit p d -> - 2 ^ 31 <= d < 2 ^ 31.
Proof.
  intros Hp [H0 H1]. split; [lia|].
  apply Z.lt_le_trans with (2 ^ p); [assumption|].
  apply Z.pow_le_mono_r; lia.
Qed.

(** What [_create_internal_tensor] returns, when it returns: the digit
    lists of the elements put end to end, each cast to int32. *)
Lemma create_internal_tensor_ok fuel tensor p vp c :
  _create_internal_tensor fuel tensor p vp = Ok c ->
  exists result L,
    mapM (fun x => _split_number fuel (py_int (x * pow2 vp)) p) (data tensor) = Ok result
    /\ max_len result = Ok L
    /\ Forall (fun l => length l = L) result
    /\ shape c = shape tensor ++ [L]
    /\ data c = map wrap32 (concat result)
    /\ well_formed c.
Proof.
  unfold _create_internal_tensor. intro H.
  destruct (mapM _ (data tensor)) as [result| |] eqn:Em; try discriminate.
  simpl in H. destruct (max_len result) as [L| |] eqn:EL; try discriminate.
  simpl in H. destruct (np_array result) as [arr| |] eqn:Ea; try discriminate.
  simpl in H. unfold np_reshape in H.
  destruct (Nat.eqb_spec (numel (shape tensor ++ [L])) (length (data arr))) as [Hn|];
    try discriminate.
  simpl in H. unfold torch_IntTensor in H. simpl in H.
  destruct (forallb in_int64b (data arr)); try discriminate.
  injection H as <-. exists result, L.
  unfold np_array in Ea. destruct result as [|r rs]; [discriminate|].
  destruct (forallb (fun l => (length l =? length r)%nat) rs) eqn:Ef; try discriminate.
  injection Ea as <-. simpl in *.
  assert (Hall : Forall (fun l => length l = length r) rs).
  { apply Forall_forall. intros l Hl. rewrite forallb_forall in Ef.
    apply Nat.eqb_eq. apply Ef. exact Hl. }
  assert (HL : L = length r).
  { injection EL as <-. clear - Hall. induction Hall as [|l rs Hl _ IH]; simpl.
    - reflexivity.
    - rewrite Hl, Nat.max_id. exact IH. }
  subst L. repeat split; try reflexivity.
  - exact EL.
  - constructor; [reflexivity | exact Hall].
  - unfold well_formed. simpl. rewrite length_map. symmetry. exact Hn.
Qed.

Lemma concat_Forall {A : Type} (P : A -> Prop) (ls : list (list A)) :
  Forall (Forall P) ls -> Forall P (concat ls).
Proof.
  induction 1 as [|l ls Hl _ IH]; simpl; [constructor|].
  apply Forall_app. split; assumption.
Qed.

Lemma fix_digits_in_range fuel x r :
  0 <= precision x <= 31 ->
  fix_large_precision fuel x = Ok r -> digits_in_range r.
Proof.
  intros Hp H. unfold fix_large_precision in H.
  destruct (_create_internal_tensor fuel (child x) (precision x) (virtual_prec x))
    as [c| |] eqn:Ec; try discriminate.
  injection H as <-. unfold digits_in_range. simpl.
  destruct (create_internal_tensor_ok _ _ _ _ _ Ec) as (result & L & Em & _ & _ & _ & Hd & _).
  rewrite Hd.
  assert (Hr : Forall (is_digit (precision x)) (concat result)).
  { apply concat_Forall. apply (mapM_Forall _ _ _ _ (fun x0 y H => split_number_digits
      (precision x) fuel _ y (proj1 Hp) H) Em). }
  apply Forall_map. revert Hr. apply Forall_impl. intros d Hd'.
  rewrite wrap32_small; [exact Hd' | apply (is_digit_int32 (precision x)); assumption].
Qed.

Lemma adjust_to_shape_elems (P : Z -> Prop) t s r :
  P 0 -> Forall P (data t) -> _adjust_to_shape t s 0 = Ok r -> Forall P (data r).
Proof.
  intros H0 Ht H. unfold _adjust_to_shape in H.
  destruct (last_dim s) as [l1| |]; try discriminate. simpl in H.
  destruct (last_dim (shape t)) as [l2| |]; try discriminate. simpl in H.
  unfold torch_full in H.
  destruct (Z.of_nat l1 - Z.of_nat l2 <? 0); try discriminate. simpl in H.
  apply (torch_cat_elems P _ _ _ _) in H; [exact H| |exact Ht].
  simpl. apply Forall_forall. intros z Hz. apply repeat_spec in Hz. subst z. exact H0.
Qed.

Lemma add_elems (P : Z -> Prop) a b r :
  P 0 -> Forall P (data (child a)) -> Forall P (data (child b)) ->
  add a b = Ok r ->
  precision r = precision a /\ virtual_prec r = virtual_prec a
  /\ Forall (fun z => exists x y, P x /\ P y /\ z = wrap32 (x + y)) (data (child r)).
Proof.
  intros H0 Ha Hb H. unfold add in H.
  destruct (last_dim (shape (child a))) as [l1| |]; try discriminate. simpl in H.
  destruct (last_dim (shape (child b))) as [l2| |]; try discriminate. simpl in H.
  match type of H with bind ?m _ = _ => destruct m as [res| |] eqn:E end; try discriminate.
  injection H as <-. simpl. split; [reflexivity|]. split; [reflexivity|].
  destruct (negb (l1 =? l2)%nat).
  - destruct (l1 <? l2)%nat.
    + destruct (_adjust_to_shape (child a) (shape (child b)) 0) as [a'| |] eqn:Ea;
        try discriminate. simpl in E.
      apply (broadcast_map2_elems 0 _ P a' (child b) res H0); try assumption.
      exact (adjust_to_shape_elems P _ _ _ H0 Ha Ea).
    + destruct (_adjust_to_shape (child b) (shape (child a)) 0) as [b'| |] eqn:Eb;
        try discriminate. simpl in E.
      apply (broadcast_map2_elems 0 _ P b' (child a) res H0); try assumption.
      exact (adjust_to_shape_elems P _ _ _ H0 Hb Eb).
  - apply (broadcast_map2_elems 0 _ P (child a) (child b) res H0); assumption.
Qed.

(** Counterexample to C3: the encodings of [[255]] with 8-bit digits are
    in range, and their sum holds the digit 510. *)
Lemma add_leaves_digit_range :
  fix_large_precision 1 raw_255 = Ok enc_255
  /\ digits_in_range enc_255
  /\ add enc_255 enc_255 = Ok (mk_LPT 8 0 (mk_ndarray [1; 1]%nat [510]))
  /\ ~ digits_in_range (mk_LPT 8 0 (mk_ndarray [1; 1]%nat [510]))
  /\ ~ digit_invariant.
Proof.
  assert (Hin : digits_in_range enc_255).
  { constructor; [|constructor]. unfold is_digit. simpl. lia. }
  assert (Hout : ~ digits_in_range (mk_LPT 8 0 (mk_ndarray [1; 1]%nat [510]))).
  { intro H. inversion H as [|d l Hd _]. unfold is_digit in Hd. simpl in Hd. lia. }
  split; [reflexivity|]. split; [exact Hin|]. split; [reflexivity|].
  split; [exact Hout|].
  intros [_ C]. apply Hout.
  apply (C enc_255 enc_255); auto.
Qed.

(** C3, amended. With digits of [p <= 31] bits, every element of the digit
    array that fix builds lies in [0, 2^p).  With [p <= 30], every element
    of the digit array that [add] or the compound add builds from two
    arrays with digits in [0, 2^p) is the sum of two such digits and lies
    in [0, 2 * (2^p - 1)]; it can exceed [2^p - 1]. *)
Theorem digit_bounds (p : Z) :
  0 < p <= 31 ->
  (forall fuel x r, precision x = p ->
     fix_large_precision fuel x = Ok r -> digits_in_range r)
  /\ (forall a b r, p <= 30 -> precision a = p -> precision b = p ->
        digits_in_range a -> digits_in_range b ->
        add a b = Ok r \/ __iadd__ a b = Ok r ->
        precision r = p
        /\ Forall (fun d => 0 <= d <= 2 * (2 ^ p - 1)) (data (child r))).
Proof.
  intro Hp. split.
  - intros fuel x r Hx H. apply (fix_digits_in_range fuel x r); [lia | exact H].
  - intros a b r Hp' Ha Hb Hda Hdb H.
    assert (Hadd : exists r', add a b = Ok r' /\ precision r = precision r'
                              /\ child r = child r').
    { destruct H as [H|H]; [exists r; auto|].
      unfold __iadd__ in H. destruct (add a b) as [r'| |] eqn:E; try discriminate.
      injection H as <-. exists r'. simpl.
      destruct (add_elems (fun _ => True) a b r' I) as (Hpr & _); auto;
        try (apply Forall_forall; auto). }
    destruct Hadd as (r' & Er & Hpr & Hch).
    unfold digits_in_range in Hda, Hdb. rewrite Ha in Hda. rewrite Hb in Hdb.
    destruct (add_elems (is_digit p) a b r') as (Hp1 & _ & Hel); try assumption.
    { split; [lia | apply Z.pow_pos_nonneg; lia]. }
    split; [congruence|]. rewrite Hch. revert Hel. apply Forall_impl.
    intros z (x & y & Hx & Hy & ->).
    apply (is_digit_int31 p) in Hx as Hx'; [|lia].
    apply (is_digit_int31 p) in Hy as Hy'; [|lia].
    destruct Hx as [Hx0 Hx1], Hy as [Hy0 Hy1].
    rewrite wrap32_small by lia. lia.
Qed.

Lemma digit_bounds_witness :
  digits_in_range enc_255
  /\ precision (mk_LPT 8 0 (mk_ndarray [1; 1]%nat [510])) = 8
  /\ Forall (fun d => 0 <= d <= 2 * (2 ^ 8 - 1))
            (data (child (mk_LPT 8 0 (mk_ndarray [1; 1]%nat [510])))).
Proof.
  destruct (digit_bounds 8 ltac:(lia)) as [Hfix Hadd].
  assert (H : digits_in_range enc_255) by (apply (Hfix 1%nat raw_255); reflexivity).
  split; [exact H|].
  apply (Hadd enc_255 enc_255); try reflexivity; try assumption; try lia.
  left. reflexivity.
Defined.

(** ** fix: fuel, and arrays whose items need equally many digits *)

Lemma split_number_mono k k' n bits l :
  (k <= k')%nat -> _split_number k n bits = Ok l -> _split_number k' n bits = Ok l.
Proof.
  intros Hk H. unfold _split_number in *. destruct (n =? 0); [exact H|].
  destruct (split_loop k bits (n, [])) as [parts| |] eqn:E; try discriminate.
  rewrite (split_loop_mono bits k _ _ E k' Hk). exact H.
Qed.

Lemma mapM_no_raise {A B : Type} (f : A -> outcome B) : forall l e,
  (forall x e', f x <> Raise e') -> mapM f l <> Raise e.
Proof.
  induction l as [|x l IH]; intros e Hf; simpl; [discriminate|].
  destruct (f x) as [y| |] eqn:Ey; simpl; try discriminate.
  - destruct (mapM f l) as [ys|e0|] eqn:El; simpl; try discriminate.
    exfalso. exact (IH e0 Hf eq_refl).
  - exfalso. exact (Hf _ _ Ey).
Qed.

Lemma mapM_split_mono k k' (g : Q -> Z) bits : forall xs res,
  (k <= k')%nat ->
  mapM (fun x => _split_number k (g x) bits) xs = Ok res ->
  mapM (fun x => _split_number k' (g x) bits) xs = Ok res.
Proof.
  induction xs as [|x xs IH]; intros res Hk H; simpl in *; [exact H|].
  destruct (_split_number k (g x) bits) as [y| |] eqn:Ey; try discriminate.
  rewrite (split_number_mono k k' _ _ _ Hk Ey). simpl in *.
  destruct (mapM (fun x => _split_number k (g x) bits) xs) as [ys| |] eqn:El;
    try discriminate.
  rewrite (IH ys Hk eq_refl). exact H.
Qed.

(** Once fix has answered (with an array or an exception), more fuel
    gives the same answer. *)
Lemma create_internal_tensor_mono k k' tensor p vp :
  (k <= k')%nat ->
  _create_internal_tensor k tensor p vp <> OutOfFuel ->
  _create_internal_tensor k' tensor p vp = _create_internal_tensor k tensor p vp.
Proof.
  intros Hk H. unfold _create_internal_tensor in *.
  destruct (mapM (fun x => _split_number k (py_int (x * pow2 vp)) p) (data tensor))
    as [res|e|] eqn:E.
  - rewrite (mapM_split_mono k k' (fun x => py_int (x * pow2 vp)) p _ _ Hk E).
    reflexivity.
  - exfalso. revert E. apply mapM_no_raise. intros x e'. apply split_number_no_raise.
  - contradiction H. reflexivity.
Qed.

Lemma fix_large_precision_mono k k' x :
  (k <= k')%nat ->
  fix_large_precision k x <> OutOfFuel ->
  fix_large_precision k' x = fix_large_precision k x.
Proof.
  intros Hk H. unfold fix_large_precision in *.
  rewrite (create_internal_tensor_mono k k'); [reflexivity | assumption |].
  intro E. apply H. rewrite E. reflexivity.
Qed.

(** Two answers of fix to the same input are the same tensor. *)
Lemma fix_large_precision_det k k' x a b :
  fix_large_precision k x = Ok a -> fix_large_precision k' x = Ok b -> a = b.
Proof.
  intros Ha Hb.
  assert (H1 : fix_large_precision (Nat.max k k') x = Ok a).
  { rewrite (fix_large_precision_mono k); [exact Ha | lia | congruence]. }
  assert (H2 : fix_large_precision (Nat.max k k') x = Ok b).
  { rewrite (fix_large_precision_mono k'); [exact Hb | lia | congruence]. }
  congruence.
Qed.







(** ** restore *)

Lemma map_nth_firstn_skipn {A : Type} (d : A) : forall m l,
  (m <= length l)%nat -> map (fun j => nth j l d) (seq 0 m) = firstn m l.
Proof.
  induction m as [|m IH]; intros l Hl; [reflexivity|].
  destruct l as [|x l]; [simpl in Hl; lia|].
  simpl. f_equal. rewrite <- seq_shift, map_map. simpl.
  apply IH. simpl in Hl. lia.
Qed.

Lemma flat_map_singleton {A B : Type} (g : A -> B) (l : list A) :
  flat_map (fun x => [g x]) l = map g l.
Proof. induction l as [|x l IH]; simpl; [reflexivity | rewrite IH; reflexivity]. Qed.

Lemma row_concat_uniform (ls : list (list Z)) L : forall o,
  Forall (fun l => length l = L) ls -> (o < length ls)%nat ->
  row L (concat ls) o = nth o ls [].
Proof.
  unfold row. induction ls as [|l ls IH]; intros o Hall Ho; [simpl in Ho; lia|].
  inversion Hall as [|? ? Hl Hall']; subst. simpl concat.
  destruct o as [|o].
  - simpl. rewrite firstn_app, Nat.sub_diag, firstn_all. simpl. apply app_nil_r.
  - simpl nth. rewrite <- (IH o Hall') by (simpl in Ho; lia).
    rewrite skipn_app.
    rewrite skipn_all2 by (simpl; lia).
    replace (S o * length l - length l)%nat with (o * length l)%nat by (simpl; lia).
    reflexivity.
Qed.

(** On a two-dimensional digit array, axis 1 is the digit axis: restore
    decodes every row and divides by [2 ** virtual_prec]. *)
Lemma restore_precision_rows (t : LargePrecisionTensor Z) (n L : nat) :
  shape (child t) = [n; L] -> (0 < n)%nat -> well_formed (child t) ->
  restore_precision t
  = Ok (mk_ndarray [n]
          (map (fun o => (inject_Z (_restore_number_np (row L (data (child t)) o)
                                      (precision t))
                          / pow2 (virtual_prec t))%Q)
               (seq 0 n))).
Proof.
  intros Hs Hn Hwf. unfold restore_precision, np_apply_along_axis.
  unfold well_formed in Hwf. rewrite Hs in *. simpl in Hwf.
  change (length [n; L] <=? 1)%nat with false. cbv iota.
  change (firstn 1 [n; L]) with [n]. change (skipn 2 [n; L]) with (@nil nat).
  change (nth 1 [n; L] 0%nat) with L. change (numel []) with 1%nat.
  change (numel [n]) with (n * 1)%nat. rewrite !Nat.mul_1_r.
  destruct (Nat.eqb_spec n 0); [lia|]. simpl bind. f_equal. f_equal.
  change (seq 0 1) with [0%nat]. simpl map at 2.
  rewrite flat_map_singleton, map_map. apply map_ext_in.
  intros o Ho. apply in_seq in Ho. f_equal. f_equal. f_equal. unfold row.
  rewrite <- (map_nth_firstn_skipn 0) by (rewrite length_skipn; nia).
  apply map_ext. intro j. rewrite nth_skipn. f_equal. lia.
Qed.

(** ** The round trip through fix and restore *)

Section RoundTrip.

Local Open Scope Q_scope.





End RoundTrip.







(** ** Equality *)

Lemma forallb_eqb_combine : forall la lb : list Z,
  length la = length lb ->
  (forallb (fun b => b) (map (fun p => fst p =? snd p) (combine la lb)) = true <-> la = lb).
Proof.
  induction la as [|x la IH]; intros [|y lb] Hl; simpl in *; try discriminate.
  - split; reflexivity.
  - rewrite andb_true_iff, Z.eqb_eq, (IH lb) by lia. split.
    + intros [-> ->]. reflexivity.
    + intro H. injection H as -> ->. auto.
Qed.


(** Counterexample to C9: the encodings of 5 and of 327685 are the digit
    arrays [[5]] and [[5, 5]]; they differ, yet [==] broadcasts the first
    over the second and answers true at every position. *)
Lemma eq_true_on_different_arrays :
  fix_large_precision 2 raw_5 = Ok enc_5
  /\ fix_large_precision 2 raw_327685 = Ok enc_327685
  /\ child enc_5 <> child enc_327685
  /\ __eq__ enc_5 enc_327685 = Ok (mk_ndarray [1; 2]%nat [true; true])
  /\ ~ eq_is_exact_equality.
Proof.
  split; [reflexivity|]. split; [reflexivity|].
  assert (Hne : child enc_5 <> child enc_327685) by discriminate.
  split; [exact Hne|]. split; [reflexivity|].
  intro C. apply Hne. apply (C enc_5 enc_327685); try reflexivity.
  eexists. split; reflexivity.
Qed.

(** C9, amended. For two tensors whose digit arrays have the same shape,
    the equality operation returns the elementwise comparison array of
    that shape, and this array is true everywhere exactly when the two
    digit arrays are equal; in particular two tensors that fix returned
    for the same input compare true everywhere. *)
Theorem eq_same_shape (a b : LargePrecisionTensor Z) :
  well_formed (child a) -> well_formed (child b) ->
  shape (child a) = shape (child b) ->
  exists t,
    __eq__ a b = Ok t
    /\ shape t = shape (child a)
    /\ data t = map (fun p => fst p =? snd p) (combine (data (child a)) (data (child b)))
    /\ (all_true t <-> child a = child b)
    /\ (forall fuel fuel' x, fix_large_precision fuel x = Ok a ->
                             fix_large_precision fuel' x = Ok b -> all_true t).
Proof.
  intros Ha Hb Hs. unfold __eq__, torch_eq.
  rewrite (broadcast_map2_same 0 Z.eqb (child a) (child b) Hs Ha Hb).
  eexists. split; [reflexivity|]. simpl. split; [reflexivity|]. split; [reflexivity|].
  assert (Hl : length (data (child a)) = length (data (child b))).
  { unfold well_formed in *. congruence. }
  assert (Hiff : all_true
            (mk_ndarray (shape (child a))
               (map (fun p => fst p =? snd p) (combine (data (child a)) (data (child b)))))
          <-> child a = child b).
  { unfold all_true. simpl. rewrite (forallb_eqb_combine _ _ Hl).
    destruct (child a) as [sa da], (child b) as [sb db]. simpl in *. split.
    - intros ->. congruence.
    - intro H. injection H as _ ->. reflexivity. }
  split; [exact Hiff|].
  intros fuel fuel' x Hfa Hfb. apply Hiff.
  rewrite (fix_large_precision_det fuel fuel' x a b Hfa Hfb). reflexivity.
Qed.

Lemma eq_same_shape_witness :
  exists t,
    __eq__ enc_1000 enc_327685 = Ok t
    /\ shape t = shape (child enc_1000)
    /\ data t = map (fun p => fst p =? snd p)
                    (combine (data (child enc_1000)) (data (child enc_327685)))
    /\ (all_true t <-> child enc_1000 = child enc_327685)
    /\ (forall fuel fuel' x, fix_large_precision fuel x = Ok enc_1000 ->
                             fix_large_precision fuel' x = Ok enc_327685 -> all_true t).
Proof. apply (eq_same_shape enc_1000 enc_327685); reflexivity. Defined.

(** ** Where the code leaves its documented behaviour *)

(** C1, defect. On [[1, 65536]] with 16-bit digits the items split into
    [[1]] and [[1, 0]]; fix does not pad the shorter list, and building the
    array from the two lists of unequal length raises [ValueError] as soon
    as the fuel lets both splits return.  No fuel makes fix return an
    array. *)
Theorem fix_ragged_raises :
  (forall fuel, fix_large_precision (2 + fuel) raw_1_65536 = Raise ValueError)
  /\ (forall fuel r, fix_large_precision fuel raw_1_65536 <> Ok r).
Proof.
  assert (H2 : fix_large_precision 2 raw_1_65536 = Raise ValueError) by reflexivity.
  assert (H : forall fuel, fix_large_precision (2 + fuel) raw_1_65536 = Raise ValueError).
  { intro fuel. rewrite (fix_large_precision_mono 2); [exact H2 | lia |].
    rewrite H2. discriminate. }
  split; [exact H|].
  intros fuel r Hr.
  assert (H' : fix_large_precision (2 + fuel) raw_1_65536 = Ok r).
  { rewrite (fix_large_precision_mono fuel); [exact Hr | lia |].
    rewrite Hr. discriminate. }
  rewrite H in H'. discriminate H'.
Qed.

(** C6, defect. The encoding of [[[1, 2], [3, 4]]] has shape (2, 2, 1).
    restore decodes along axis 1, which is not the digit axis here: it
    reads [1, 2] and [3, 4] as digit rows and returns the (2, 1) array
    [[65538], [196612]] where the original array has shape (2, 2). *)
Theorem restore_decodes_axis_1 :
  fix_large_precision 1 raw_2x2 = Ok enc_2x2
  /\ restore_precision enc_2x2
     = Ok (mk_ndarray [2; 1]%nat [65538%Q; 196612%Q])
  /\ shape (child raw_2x2) = [2; 2]%nat.
Proof. repeat split; reflexivity. Qed.

(** ** Further properties of the code *)

(** X2. Zero digits in front of a digit sequence do not change the number
    [_restore_number] rebuilds: a left-padded row still restores to its
    value. *)
Theorem restore_ignores_leading_zeros (bits : Z) (k : nat) (number_parts : list Z) :
  _restore_number (repeat 0 k ++ number_parts) bits = _restore_number number_parts bits.
Proof. rewrite !restore_number_np_eq. apply restore_np_zeros. Qed.

(** X3. [_restore_number] and [_restore_number_np] rebuild the same
    number from the same digits. *)
Theorem restore_number_variants_agree (number_parts : list Z) (bits : Z) :
  _restore_number number_parts bits = _restore_number_np number_parts bits.
Proof. apply restore_number_np_eq. Qed.







(** ** The codec as a positional numeral system *)

Lemma lsd_value_app bits l1 l2 :
  0 <= bits ->
  lsd_value bits (l1 ++ l2)
  = lsd_value bits l1 + 2 ^ (bits * Z.of_nat (length l1)) * lsd_value bits l2.
Proof.
  intro Hb. induction l1 as [|d l1 IH]; simpl app; simpl lsd_value.
  - change (Z.of_nat (length (@nil Z))) with 0. rewrite Z.mul_0_r, Z.pow_0_r. lia.
  - fold (lsd_value bits (l1 ++ l2)). fold (lsd_value bits l1). rewrite IH.
    replace (bits * Z.of_nat (length (d :: l1)))
      with (bits + bits * Z.of_nat (length l1)) by (simpl length; lia).
    rewrite Z.pow_add_r by lia. ring.
Qed.

Lemma lsd_value_bound bits l :
  0 <= bits -> Forall (is_digit bits) l ->
  0 <= lsd_value bits l < 2 ^ (bits * Z.of_nat (length l)).
Proof.
  intros Hb H. induction H as [|d l [Hd0 Hd1] _ IH].
  - change (Z.of_nat (length (@nil Z))) with 0. rewrite Z.mul_0_r, Z.pow_0_r.
    simpl. lia.
  - simpl lsd_value. fold (lsd_value bits l).
    replace (bits * Z.of_nat (length (d :: l)))
      with (bits + bits * Z.of_nat (length l)) by (simpl length; lia).
    rewrite Z.pow_add_r by lia.
    assert (0 < 2 ^ bits) by (apply Z.pow_pos_nonneg; lia).
    nia.
Qed.

Lemma restore_np_acc bits l : forall acc,
  0 <= bits ->
  fold_left (fun n x => n * 2 ^ bits + x) l acc
  = acc * 2 ^ (bits * Z.of_nat (length l)) + _restore_number_np l bits.
Proof.
  unfold _restore_number_np. set (f := fun n x : Z => n * 2 ^ bits + x).
  induction l as [|x l IH]; intros acc Hb.
  - change (Z.of_nat (length (@nil Z))) with 0. rewrite Z.mul_0_r, Z.pow_0_r.
    simpl. lia.
  - change (fold_left f (x :: l) acc) with (fold_left f l (f acc x)).
    change (fold_left f (x :: l) 0) with (fold_left f l (f 0 x)).
    rewrite (IH (f acc x)), (IH (f 0 x)) by assumption.
    replace (bits * Z.of_nat (length (x :: l)))
      with (bits + bits * Z.of_nat (length l)) by (simpl length; lia).
    rewrite Z.pow_add_r by lia. unfold f. ring.
Qed.

Lemma split_loop_length bits k : forall st l,
  split_loop k bits st = Ok l -> (length (snd st) <= length l)%nat.
Proof.
  induction k as [|k IH]; intros st l H; simpl in H;
    destruct (fst st =? 0); try discriminate;
    try (injection H as <-; lia).
  apply IH in H. destruct st as [m ps]. rewrite split_step_snd in H.
  rewrite length_app in H. simpl in *. lia.
Qed.

Lemma split_loop_nonempty bits k st l :
  fst st <> 0 -> split_loop k bits st = Ok l -> l <> [].
Proof.
  intros Hne H. destruct k as [|k]; simpl in H;
    destruct (Z.eqb_spec (fst st) 0); try contradiction; try discriminate.
  apply split_loop_length in H. destruct st as [m ps].
  rewrite split_step_snd, length_app in H. simpl in H.
  intros ->. simpl in H. lia.
Qed.

(** X1. Whenever [_split_number] returns, for a bit width that is not
    negative, it returns at least one digit and every digit lies in
    [0, 2^bits). *)
Theorem split_digits_in_range (fuel : nat) (n bits : Z) (parts : list Z) :
  0 <= bits -> _split_number fuel n bits = Ok parts ->
  parts <> [] /\ Forall (fun d => 0 <= d < 2 ^ bits) parts.
Proof.
  intros Hb H. split; [|exact (split_number_digits bits fuel n parts Hb H)].
  unfold _split_number in H. destruct (Z.eqb_spec n 0) as [En|En].
  - injection H as <-. discriminate.
  - destruct (split_loop fuel bits (n, [])) as [l| |] eqn:E; try discriminate.
    injection H as <-. apply split_loop_nonempty in E; [|exact En].
    intro Hnil. apply E. rewrite <- (rev_involutive l), Hnil. reflexivity.
Qed.

Lemma split_digits_in_range_witness :
  [3; 232] <> [] /\ Forall (fun d => 0 <= d < 2 ^ 8) [3; 232].
Proof. apply (split_digits_in_range 5 1000 8 [3; 232]); [lia | reflexivity]. Defined.

(** X7. For a positive [n] and [bits > 0] the digit sequence that
    [_split_number] returns is canonical: it has
    [floor(log2 n / bits) + 1] digits and its first (most significant)
    digit is not zero. *)
Theorem split_canonical (fuel : nat) (n bits : Z) :
  0 < n -> 0 < bits -> (Z.to_nat n <= fuel)%nat ->
  exists d rest,
    _split_number fuel n bits = Ok (d :: rest)
    /\ 0 < d < 2 ^ bits
    /\ Z.of_nat (length (d :: rest)) = Z.log2 n / bits + 1.
Proof.
  intros Hn Hb Hf.
  destruct (split_number_nonneg bits n Hb ltac:(lia)) as (parts & He & Hd & Hv & Hl).
  assert (Hlog : 0 <= Z.log2 n / bits)
    by (apply Z.div_pos; [apply Z.log2_nonneg | lia]).
  destruct parts as [|d rest].
  { unfold ndigits in Hl. simpl in Hl. lia. }
  exists d, rest. split; [apply He; exact Hf|].
  apply Forall_cons_iff in Hd. destruct Hd as [[Hd0 Hd1] Hrest].
  assert (Hlen : Z.of_nat (length (d :: rest)) = Z.log2 n / bits + 1)
    by (rewrite Hl; unfold ndigits; lia).
  split; [|exact Hlen]. split; [|exact Hd1].
  destruct (Z.eq_dec d 0) as [->|Hne]; [|lia]. exfalso.
  simpl rev in Hv. rewrite lsd_value_app in Hv by lia. simpl lsd_value in Hv.
  pose proof (lsd_value_bound bits (rev rest) ltac:(lia) (Forall_rev Hrest)) as Hbd.
  rewrite length_rev in Hbd.
  assert (Hr : Z.of_nat (length rest) = Z.log2 n / bits) by (simpl length in Hlen; lia).
  rewrite Hr in Hbd.
  pose proof (Z.log2_spec n Hn) as [Hlo _].
  pose proof (Z.mul_div_le (Z.log2 n) bits Hb) as Hle.
  assert (Hpow : 2 ^ (bits * (Z.log2 n / bits)) <= 2 ^ Z.log2 n)
    by (apply Z.pow_le_mono_r; lia).
  lia.
Qed.

Lemma split_canonical_witness :
  exists d rest,
    _split_number 1000 1000 8 = Ok (d :: rest)
    /\ 0 < d < 2 ^ 8
    /\ Z.of_nat (length (d :: rest)) = Z.log2 1000 / 8 + 1.
Proof. apply (split_canonical 1000 1000 8); lia. Defined.

(** X8. [_restore_number] reads a digit sequence positionally: digits in
    [0, 2^bits) give a value in [0, 2^(bits * length)). *)
Theorem restore_bound (number_parts : list Z) (bits : Z) :
  0 <= bits -> Forall (fun d => 0 <= d < 2 ^ bits) number_parts ->
  0 <= _restore_number number_parts bits < 2 ^ (bits * Z.of_nat (length number_parts)).
Proof.
  intros Hb H. rewrite restore_number_np_eq, restore_np_lsd.
  rewrite <- (length_rev number_parts).
  apply lsd_value_bound; [exact Hb | apply Forall_rev; exact H].
Qed.

Lemma restore_bound_witness :
  0 <= _restore_number [3; 232] 8 < 2 ^ (8 * Z.of_nat (length [3; 232])).
Proof.
  apply (restore_bound [3; 232] 8); [lia|].
  repeat constructor; simpl; lia.
Defined.

(** X9. [_restore_number] of a concatenation: the digits in front weigh
    [2^bits] to the number of digits behind them. *)
Theorem restore_app (l1 l2 : list Z) (bits : Z) :
  0 <= bits ->
  _restore_number (l1 ++ l2) bits
  = _restore_number l1 bits * 2 ^ (bits * Z.of_nat (length l2)) + _restore_number l2 bits.
Proof.
  intro Hb. rewrite !restore_number_np_eq. unfold _restore_number_np at 1.
  rewrite fold_left_app. apply restore_np_acc. exact Hb.
Qed.

Lemma restore_app_witness :
  _restore_number ([3] ++ [232]) 8
  = _restore_number [3] 8 * 2 ^ (8 * Z.of_nat (length [232])) + _restore_number [232] 8.
Proof. apply (restore_app [3] [232] 8). lia. Defined.

Lemma lsd_value_pos bits l :
  0 <= bits -> Forall (is_digit bits) l -> l <> [] -> last l 0 <> 0 ->
  0 < lsd_value bits l.
Proof.
  intros Hb H. induction H as [|d l [Hd0 Hd1] Hl IH]; intros Hne Hlast; [contradiction|].
  simpl lsd_value. fold (lsd_value bits l).
  assert (0 < 2 ^ bits) by (apply Z.pow_pos_nonneg; lia).
  destruct l as [|d' l'].
  - simpl in *. lia.
  - assert (0 < lsd_value bits (d' :: l')) by (apply IH; [discriminate | exact Hlast]).
    nia.
Qed.

Lemma split_loop_lsd bits : 0 < bits -> forall new acc fuel,
  Forall (is_digit bits) new -> (new <> [] -> last new 0 <> 0) ->
  (length new <= fuel)%nat ->
  split_loop fuel bits (lsd_value bits new, acc) = Ok (acc ++ new).
Proof.
  intro Hb. induction new as [|d new IH]; intros acc fuel Hd Hlast Hf.
  - simpl lsd_value. rewrite split_loop_zero, app_nil_r. reflexivity.
  - apply Forall_cons_iff in Hd. destruct Hd as [[Hd0 Hd1] Hnew].
    destruct fuel as [|fuel]; [simpl in Hf; lia|].
    assert (Hpos : 0 < lsd_value bits (d :: new)).
    { apply lsd_value_pos; [lia | constructor; [split|]; assumption | discriminate |].
      apply Hlast. discriminate. }
    rewrite split_loop_step by (cbn [fst]; lia).
    unfold split_step. rewrite divmod_pow2_nonneg by lia.
    simpl lsd_value. fold (lsd_value bits new).
    assert (0 < 2 ^ bits) by (apply Z.pow_pos_nonneg; lia).
    replace ((d + 2 ^ bits * lsd_value bits new) / 2 ^ bits) with (lsd_value bits new).
    2:{ apply Z.div_unique_pos with (r := d); lia. }
    replace ((d + 2 ^ bits * lsd_value bits new) mod 2 ^ bits) with d.
    2:{ apply Z.mod_unique_pos with (q := lsd_value bits new); lia. }
    rewrite (IH (acc ++ [d]) fuel Hnew).
    + rewrite <- app_assoc. reflexivity.
    + intro Hne. destruct new as [|d' new']; [contradiction|].
      apply Hlast. discriminate.
    + simpl in Hf. lia.
Qed.

Lemma last_rev_hd (l : list Z) : last (rev l) 0 = hd 0 l.
Proof. destruct l as [|d l]; [reflexivity|]. simpl. apply last_last. Qed.

(** X10. The round trip in the other direction: a digit sequence with
    digits in [0, 2^bits) that is [[0]] or starts with a non-zero digit is
    what [_split_number] returns for the number [_restore_number] reads
    from it, on any fuel of at least one turn per digit. *)
Theorem split_of_restore (number_parts : list Z) (bits : Z) (fuel : nat) :
  0 < bits -> Forall (fun d => 0 <= d < 2 ^ bits) number_parts ->
  number_parts = [0] \/ hd 0 number_parts <> 0 ->
  (length number_parts <= fuel)%nat ->
  _split_number fuel (_restore_number number_parts bits) bits = Ok number_parts.
Proof.
  intros Hb Hd Hc Hf. destruct Hc as [->|Hhd]; [reflexivity|].
  rewrite restore_number_np_eq, restore_np_lsd.
  assert (Hne : rev number_parts <> []).
  { destruct number_parts; [contradiction Hhd; reflexivity|].
    simpl. intro E. destruct (rev number_parts); discriminate. }
  assert (Hlast : last (rev number_parts) 0 <> 0) by (rewrite last_rev_hd; exact Hhd).
  pose proof (lsd_value_pos bits (rev number_parts) ltac:(lia)
                (Forall_rev Hd) Hne Hlast) as Hpos.
  unfold _split_number.
  destruct (Z.eqb_spec (lsd_value bits (rev number_parts)) 0); [lia|].
  rewrite (split_loop_lsd bits Hb (rev number_parts) [] fuel (Forall_rev Hd));
    [|intros _; exact Hlast | rewrite length_rev; exact Hf].
  simpl. rewrite rev_involutive. reflexivity.
Qed.

Lemma split_of_restore_witness :
  _split_number 2 (_restore_number [3; 232] 8) 8 = Ok [3; 232].
Proof.
  apply (split_of_restore [3; 232] 8 2); [lia | | right; discriminate | simpl; lia].
  repeat constructor; simpl; lia.
Defined.

Lemma restore_np_sum_acc bits : forall l1 l2 a1 a2,
  length l1 = length l2 ->
  fold_left (fun n x => n * 2 ^ bits + x)
            (map (fun p => fst p + snd p) (combine l1 l2)) (a1 + a2)
  = fold_left (fun n x => n * 2 ^ bits + x) l1 a1
    + fold_left (fun n x => n * 2 ^ bits + x) l2 a2.
Proof.
  induction l1 as [|x l1 IH]; intros [|y l2] a1 a2 Hl; simpl in Hl; try discriminate.
  - reflexivity.
  - simpl. rewrite <- IH by lia. f_equal. ring.
Qed.

(** X11. Adding two digit sequences of the same length digit by digit,
    without any carry, adds the numbers they restore to: the restored
    value of the sums is the sum of the restored values, also when a sum
    of digits is no longer below [2^bits]. *)
Theorem restore_of_digit_sums (l1 l2 : list Z) (bits : Z) :
  0 <= bits -> length l1 = length l2 ->
  _restore_number (map (fun p => fst p + snd p) (combine l1 l2)) bits
  = _restore_number l1 bits + _restore_number l2 bits.
Proof.
  intros _ Hl. rewrite !restore_number_np_eq. unfold _restore_number_np.
  change 0 with (0 + 0) at 1. apply restore_np_sum_acc. exact Hl.
Qed.

Lemma restore_of_digit_sums_witness :
  _restore_number (map (fun p => fst p + snd p) (combine [0; 255] [3; 232])) 8
  = _restore_number [0; 255] 8 + _restore_number [3; 232] 8.
Proof. apply (restore_of_digit_sums [0; 255] [3; 232] 8); [lia | reflexivity]. Defined.

(** ** The operands of [add] and [==] can be swapped *)

Lemma broadcast_dim_comm a b : broadcast_dim a b = broadcast_dim b a.
Proof.
  unfold broadcast_dim.
  destruct (Nat.eqb_spec a b) as [->|Hab].
  - rewrite Nat.eqb_refl. reflexivity.
  - destruct (Nat.eqb_spec b a) as [Hba|_]; [congruence|].
    destruct (Nat.eqb_spec a 1) as [Ha|Ha], (Nat.eqb_spec b 1) as [Hb1|Hb1];
      congruence.
Qed.

Lemma broadcast_rev_comm : forall ra rb, broadcast_rev ra rb = broadcast_rev rb ra.
Proof.
  induction ra as [|a ra IH]; intros [|b rb]; simpl; try reflexivity.
  rewrite (broadcast_dim_comm a b), (IH rb). reflexivity.
Qed.

Lemma broadcast_shapes_comm sa sb : broadcast_shapes sa sb = broadcast_shapes sb sa.
Proof. unfold broadcast_shapes. rewrite broadcast_rev_comm. reflexivity. Qed.

Lemma broadcast_map2_comm {A B : Type} (d : A) (f : A -> A -> B) (a b : ndarray A) :
  (forall x y, f x y = f y x) ->
  broadcast_map2 d f a b = broadcast_map2 d f b a.
Proof.
  intro Hf. unfold broadcast_map2. rewrite (broadcast_shapes_comm (shape a) (shape b)).
  destruct (broadcast_shapes (shape b) (shape a)); [|reflexivity].
  f_equal. f_equal. apply map_ext. intro idx. apply Hf.
Qed.

Lemma torch_add_comm a b : torch_add a b = torch_add b a.
Proof.
  unfold torch_add. apply broadcast_map2_comm. intros x y.
  rewrite Z.add_comm. reflexivity.
Qed.

Lemma omap_child_wrap (p v : Z) (m : outcome (ndarray Z)) :
  omap child (result <- m ;; Ok (mk_LPT p v result)) = m.
Proof. destruct m; reflexivity. Qed.

(** X12. [add] is commutative on the digit arrays, for all operands:
    [add a b] and [add b a] end the same way, and when they return they
    return the same digit array (each under the [precision] and
    [virtual_prec] of its own left operand). *)
Theorem add_comm (a b : LargePrecisionTensor Z) :
  omap child (add a b) = omap child (add b a).
Proof.
  assert (Hld : forall s, last_dim s = Ok (last s 0%nat) \/ last_dim s = Raise IndexError).
  { intros [|d s]; [right | left]; reflexivity. }
  unfold add. cbv zeta.
  destruct (Hld (shape (child a))) as [-> | ->], (Hld (shape (child b))) as [-> | ->];
    cbn [bind omap]; try reflexivity.
  rewrite !omap_child_wrap.
  set (l1 := last (shape (child a)) 0%nat). set (l2 := last (shape (child b)) 0%nat).
  destruct (Nat.eqb_spec l1 l2) as [E|Hne].
  - rewrite E, Nat.eqb_refl. cbn [negb]. apply torch_add_comm.
  - destruct (Nat.eqb_spec l2 l1) as [E|_]; [congruence|]. cbn [negb].
    destruct (Nat.ltb_spec l1 l2), (Nat.ltb_spec l2 l1); try lia; reflexivity.
Qed.

(** X13. [==] does not depend on the order of its operands: [a == b] and
    [b == a] end the same way and return the same comparison array. *)
Theorem eq_comm (a b : LargePrecisionTensor Z) : __eq__ a b = __eq__ b a.
Proof.
  unfold __eq__, torch_eq. apply broadcast_map2_comm. apply Z.eqb_sym.
Qed.

(** ** fix: when it returns, and when it does not *)

Lemma split_number_nonempty fuel n bits l : _split_number fuel n bits = Ok l -> l <> [].
Proof.
  unfold _split_number. destruct (Z.eqb_spec n 0) as [En|En]; intro H.
  - injection H as <-. discriminate.
  - destruct (split_loop fuel bits (n, [])) as [parts| |] eqn:E; try discriminate.
    injection H as <-. apply split_loop_nonempty in E; [|exact En].
    intro Hnil. apply E. rewrite <- (rev_involutive parts), Hnil. reflexivity.
Qed.

(** X14. When fix returns, the tensor it returns has the [precision] and
    [virtual_prec] it was given and a rectangular digit array with one more
    axis than the input: its shape is the input shape followed by a digit
    count [L >= 1], and it holds [L] digits per input position. *)
Theorem fix_result_shape (fuel : nat) (x : LargePrecisionTensor Q)
    (r : LargePrecisionTensor Z) :
  fix_large_precision fuel x = Ok r ->
  precision r = precision x /\ virtual_prec r = virtual_prec x
  /\ exists L, (1 <= L)%nat
       /\ shape (child r) = shape (child x) ++ [L]
       /\ length (data (child r)) = (numel (shape (child x)) * L)%nat.
Proof.
  intro H. unfold fix_large_precision in H.
  destruct (_create_internal_tensor fuel (child x) (precision x) (virtual_prec x))
    as [c| |] eqn:Ec; try discriminate.
  injection H as <-. simpl. split; [reflexivity|]. split; [reflexivity|].
  destruct (create_internal_tensor_ok _ _ _ _ _ Ec)
    as (result & L & Em & EL & Hlen & Hs & Hd & Hwf).
  exists L. split; [|split; [exact Hs|]].
  - destruct result as [|l rs]; [discriminate EL|].
    inversion Hlen as [|? ? Hl _]; subst.
    simpl in Em.
    destruct (data (child x)) as [|v vs]; [discriminate Em|]. simpl in Em.
    destruct (_split_number fuel (py_int (v * pow2 (virtual_prec x))) (precision x))
      as [y| |] eqn:Ey; try discriminate. simpl in Em.
    destruct (mapM _ vs); try discriminate. injection Em as <- _.
    apply split_number_nonempty in Ey. destruct y; [contradiction | simpl; lia].
  - unfold well_formed in Hwf. rewrite Hwf, Hs. apply numel_snoc.
Qed.

Lemma fix_result_shape_witness :
  precision enc_1000 = precision raw_1000 /\ virtual_prec enc_1000 = virtual_prec raw_1000
  /\ exists L, (1 <= L)%nat
       /\ shape (child enc_1000) = shape (child raw_1000) ++ [L]
       /\ length (data (child enc_1000)) = (numel (shape (child raw_1000)) * L)%nat.
Proof. apply (fix_result_shape 2 raw_1000 enc_1000). reflexivity. Defined.

(** X15. fix on a tensor without items raises [ValueError], whatever its
    shape and parameters: [max] is taken over an empty list. *)
Theorem fix_empty_raises (fuel : nat) (x : LargePrecisionTensor Q) :
  data (child x) = [] -> fix_large_precision fuel x = Raise ValueError.
Proof.
  intro H. unfold fix_large_precision, _create_internal_tensor. rewrite H. reflexivity.
Qed.

Lemma fix_empty_raises_witness :
  fix_large_precision 0 (mk_LPT 16 0 (mk_ndarray [0%nat] [])) = Raise ValueError.
Proof. apply (fix_empty_raises 0 (mk_LPT 16 0 (mk_ndarray [0%nat] []))). reflexivity. Defined.









(** ** Padding, [add] and restore together *)

Section AddRestore.

Local Open Scope nat_scope.

Lemma row_flat_map (g : nat -> list Z) c n o :
  (forall i, i < n -> length (g i) = c) -> o < n ->
  row c (flat_map g (seq 0 n)) o = g o.
Proof.
  intros Hlen Ho. rewrite flat_map_concat_map.
  rewrite row_concat_uniform.
  - rewrite (nth_indep _ [] (g 0)) by (rewrite length_map, length_seq; exact Ho).
    rewrite map_nth, seq_nth by exact Ho. reflexivity.
  - apply Forall_map, Forall_forall. intros i Hi. apply in_seq in Hi.
    apply Hlen. lia.
  - rewrite length_map, length_seq. exact Ho.
Qed.

Lemma row_pad_rows nrows L k digits o :
  length digits = nrows * L -> o < nrows ->
  row (k + L) (pad_rows nrows L k digits) o = repeat 0%Z k ++ row L digits o.
Proof.
  intros Hl Ho. unfold pad_rows. rewrite row_flat_map; [reflexivity | | exact Ho].
  intros i Hi. rewrite length_app, repeat_length, (length_row digits nrows); auto.
Qed.






(** Padding a two-dimensional digit array and restoring it. *)
Lemma restore_padded (t : LargePrecisionTensor Z) (n L L' : nat) :
  shape (child t) = [n; L] -> 0 < n -> well_formed (child t) -> L < L' ->
  exists c,
    _adjust_to_shape (child t) [n; L'] 0 = Ok c
    /\ shape c = [n; L']
    /\ restore_precision (mk_LPT (precision t) (virtual_prec t) c)
       = restore_precision t.
Proof.
  intros Hs Hn Hwf HL.
  assert (Hl : length (data (child t)) = n * L).
  { unfold well_formed in Hwf. rewrite Hwf, Hs. simpl. lia. }
  change [n; L'] with ([n] ++ [L']).
  rewrite (adjust_to_shape_pads (child t) [n] [n] L L' Hs eq_refl HL).
  eexists. split; [reflexivity|]. split; [reflexivity|].
  replace (numel [n]) with n by (simpl; lia).
  rewrite (restore_precision_rows _ n L'), (restore_precision_rows t n L);
    try assumption; try reflexivity.
  - f_equal. f_equal. apply map_ext_in. intros o Ho. apply in_seq in Ho.
    cbn [data child precision virtual_prec]. f_equal. f_equal.
    replace L' with ((L' - L) + L) at 1 by lia.
    rewrite row_pad_rows by (assumption || lia). apply restore_np_zeros.
  - unfold well_formed. cbn [data child shape].
    rewrite length_pad_rows by exact Hl. simpl. nia.
Qed.


End AddRestore.

(** X19. Left-padding does not change what restore returns: for a digit
    array with two axes, [_adjust_to_shape] to a longer digit axis returns
    an array that restores to the same values. *)
Theorem adjust_keeps_restored_values (t : LargePrecisionTensor Z) (n L L' : nat) :
  shape (child t) = [n; L] -> (0 < n)%nat -> well_formed (child t) -> (L < L')%nat ->
  exists c,
    _adjust_to_shape (child t) [n; L'] 0 = Ok c
    /\ shape c = [n; L']
    /\ restore_precision (mk_LPT (precision t) (virtual_prec t) c)
       = restore_precision t.
Proof. apply restore_padded. Qed.

Lemma adjust_keeps_restored_values_witness :
  exists c,
    _adjust_to_shape (child enc_3) [1; 4]%nat 0 = Ok c
    /\ shape c = [1; 4]%nat
    /\ restore_precision (mk_LPT (precision enc_3) (virtual_prec enc_3) c)
       = restore_precision enc_3.
Proof.
  apply (adjust_keeps_restored_values enc_3 1 1 4); [reflexivity | lia | reflexivity | lia].
Defined.






(** X22. [_adjust_to_shape] with a fill value: when the target shape has
    the rank of the array and a longer last axis, every row gets the
    missing elements in front, zeros for the default [fill_value = 0] and
    ones for any other fill value; the leading axes are untouched and the
    result is rectangular. *)
Theorem adjust_to_shape_fills (t : ndarray Z) (lead lead' : list nat) (L L' : nat)
    (fill_value : Z) :
  shape t = lead ++ [L] -> length lead' = length lead -> (L < L')%nat ->
  length (data t) = (numel lead * L)%nat ->
  exists c,
    _adjust_to_shape t (lead' ++ [L']) fill_value = Ok c
    /\ shape c = lead ++ [L']
    /\ data c = pad_rows_with (if fill_value =? 0 then 0 else 1)
                              (numel lead) L (L' - L) (data t)
    /\ length (data c) = (numel lead * L')%nat.
Proof.
  intros Hs Hlen HL Hl. unfold _adjust_to_shape.
  rewrite last_dim_snoc, Hs, last_dim_snoc. simpl bind.
  rewrite removelast_last.
  set (v := if fill_value =? 0 then 0 else 1).
  assert (Hfull : (if fill_value =? 0
                   then torch_full 0 lead (Z.of_nat L' - Z.of_nat L)
                   else torch_full 1 lead (Z.of_nat L' - Z.of_nat L))
                  = Ok (mk_ndarray (lead ++ [(L' - L)%nat])
                          (repeat v (numel (lead ++ [(L' - L)%nat]))))).
  { subst v. unfold torch_full.
    destruct (Z.ltb_spec (Z.of_nat L' - Z.of_nat L) 0); [lia|].
    replace (Z.to_nat (Z.of_nat L' - Z.of_nat L)) with (L' - L)%nat by lia.
    destruct (fill_value =? 0); reflexivity. }
  rewrite Hfull. simpl bind. unfold torch_cat. simpl shape. simpl data.
  rewrite Hs, !length_app, Hlen. simpl length.
  replace (length lead + 1 - 1)%nat with (length lead) by lia.
  rewrite Nat.eqb_refl. simpl negb.
  destruct (Nat.leb_spec (length lead + 1) (length lead)); [lia|].
  rewrite same_except_snoc. simpl negb.
  rewrite !firstn_snoc, !skipn_snoc, !skipn_S_snoc, !nth_middle, numel_snoc.
  eexists. split; [reflexivity|]. cbn [shape data].
  assert (Hdata : flat_map
             (fun o => firstn (numel [(L' - L)%nat])
                         (skipn (o * numel [(L' - L)%nat])
                            (repeat v (numel lead * (L' - L))))
                       ++ firstn (numel [L]) (skipn (o * numel [L]) (data t)))
             (seq 0 (numel lead))
           = pad_rows_with v (numel lead) L (L' - L) (data t)).
  { unfold pad_rows_with. apply flat_map_ext_in.
    intros o Ho. apply in_seq in Ho. simpl numel. rewrite !Nat.mul_1_r.
    rewrite firstn_skipn_repeat by nia. reflexivity. }
  split; [|split].
  - replace (L' - L + L)%nat with L' by lia. reflexivity.
  - exact Hdata.
  - rewrite Hdata. unfold pad_rows_with.
    rewrite (flat_map_constant_length (c := ((L' - L) + L)%nat)), length_seq.
    + f_equal. lia.
    + intros o Ho. apply in_seq in Ho.
      rewrite length_app, repeat_length, (length_row (data t) (numel lead)) by (assumption || lia).
      reflexivity.
Qed.

Lemma adjust_to_shape_fills_witness :
  exists c,
    _adjust_to_shape (child t_21) ([2%nat] ++ [3%nat]) 7 = Ok c
    /\ shape c = [2%nat] ++ [3%nat]
    /\ data c = pad_rows_with (if 7 =? 0 then 0 else 1)
                              (numel [2%nat]) 1 (3 - 1) (data (child t_21))
    /\ length (data c) = (numel [2%nat] * 3)%nat.
Proof.
  apply (adjust_to_shape_fills (child t_21) [2%nat] [2%nat] 1 3 7);
    [reflexivity | reflexivity | lia | reflexivity].
Defined.
